(** * CityInsightsBot: the city-information client of [src/index.ts]

    A shallow embedding of the TypeScript module and of the two runtime
    built-ins it calls ([JSON.parse] and [JSON.stringify]), followed by the
    properties of the prompt builder, of the response validation and of the
    error wrapping done by [getChatResponse]. *)

From Stdlib Require Import List NArith ZArith Arith Ascii String Bool Lia.
Import ListNotations.

Set Implicit Arguments.

(* ================================================================= *)
(** ** JavaScript strings *)

(** A JavaScript string is a sequence of UTF-16 code units. *)
Definition jsstring : Type := list N.

(** ASCII literals of the source, one code unit per character. *)
Definition str (s : string) : jsstring :=
  map N_of_ascii (list_ascii_of_string s).

Definition jsstring_eq_dec (a b : jsstring) : {a = b} + {a <> b} :=
  list_eq_dec N.eq_dec a b.

Definition jsstring_eqb (a b : jsstring) : bool :=
  if jsstring_eq_dec a b then true else false.

Module Ch.
Definition tab : N := 9.
Definition lf : N := 10.
Definition cr : N := 13.
Definition space : N := 32.
Definition quote : N := 34.
Definition plus : N := 43.
Definition comma : N := 44.
Definition minus : N := 45.
Definition dot : N := 46.
Definition slash : N := 47.
Definition zero : N := 48.
Definition nine : N := 57.
Definition colon : N := 58.
Definition lbracket : N := 91.
Definition backslash : N := 92.
Definition rbracket : N := 93.
Definition lbrace : N := 123.
Definition rbrace : N := 125.
End Ch.

(** [s.startsWith(p)], returning what follows the prefix. *)
Fixpoint strip_prefix (p s : jsstring) : option jsstring :=
  match p, s with
  | [], _ => Some s
  | a :: p', b :: s' => if N.eqb a b then strip_prefix p' s' else None
  | _ :: _, [] => None
  end.

(** [s.includes(p)]. *)
Fixpoint includes (p s : jsstring) : bool :=
  match strip_prefix p s with
  | Some _ => true
  | None => match s with
            | [] => false
            | _ :: s' => includes p s'
            end
  end.

(** [p] occurs in [s] as a contiguous run of code units. *)
Definition substring_of (p s : jsstring) : Prop :=
  exists before after, s = before ++ p ++ after.

(* ================================================================= *)
(** ** JSON values *)

(** The values [JSON.parse] produces and [JSON.stringify] consumes.  An
    object keeps its own properties in creation order; that an engine
    lists integer-like keys first is not modelled, and nothing below
    enumerates a parsed object.  A number is kept as the decimal token it
    was read from: its rounding to an IEEE double is not part of this
    development, and no property below depends on it. *)
#[warnings="-register-all"]
Inductive json : Type :=
| JNull
| JBool (b : bool)
| JNumber (token : jsstring)
| JString (s : jsstring)
| JArray (elements : list json)
| JObject (members : list (jsstring * json)).

Definition is_object (v : json) : bool :=
  match v with JObject _ => true | _ => false end.

(** [obj[key]] on the properties of an object. *)
Fixpoint get_member (key : jsstring) (members : list (jsstring * json))
  : option json :=
  match members with
  | [] => None
  | (k, v) :: rest =>
      if jsstring_eqb k key then Some v else get_member key rest
  end.

(** [CreateDataProperty]: an existing key keeps its place and takes the new
    value, a new key is added last. *)
Fixpoint set_member (key : jsstring) (v : json)
  (members : list (jsstring * json)) : list (jsstring * json) :=
  match members with
  | [] => [(key, v)]
  | (k, w) :: rest =>
      if jsstring_eqb k key then (k, v) :: rest
      else (k, w) :: set_member key v rest
  end.

(* ================================================================= *)
(** ** [JSON.parse] *)

(** The built-in follows the JSON grammar of ECMA-404: optional white space
    around one value; objects, arrays, strings, numbers and the three
    literals.  The parser is a recursive descent over the code units. *)
Module JSONParse.

Inductive presult (A : Type) : Type :=
| POk (a : A) (rest : jsstring)
| PSyntax (rest : jsstring)      (* no parse; [rest] is where it stopped *)
| PFuel.                         (* recursion budget exhausted *)
Arguments PSyntax {A} rest.
Arguments PFuel {A}.

Definition is_ws (c : N) : bool :=
  N.eqb c Ch.tab || N.eqb c Ch.lf || N.eqb c Ch.cr || N.eqb c Ch.space.

Fixpoint skip_ws (s : jsstring) : jsstring :=
  match s with
  | c :: r => if is_ws c then skip_ws r else s
  | [] => []
  end.

Definition is_digit (c : N) : bool := N.leb Ch.zero c && N.leb c Ch.nine.

Definition hex_value (c : N) : option N :=
  if N.leb 48 c && N.leb c 57 then Some (c - 48)%N
  else if N.leb 65 c && N.leb c 70 then Some (c - 55)%N
  else if N.leb 97 c && N.leb c 102 then Some (c - 87)%N
  else None.

Definition hex4 (a b c d : N) : option N :=
  match hex_value a, hex_value b, hex_value c, hex_value d with
  | Some x, Some y, Some z, Some w => Some (((x * 16 + y) * 16 + z) * 16 + w)%N
  | _, _, _, _ => None
  end.

(** The character after a backslash, other than [u]. *)
Definition simple_escape (c : N) : option N :=
  if N.eqb c Ch.quote then Some Ch.quote
  else if N.eqb c Ch.backslash then Some Ch.backslash
  else if N.eqb c Ch.slash then Some Ch.slash
  else if N.eqb c 98 then Some 8%N
  else if N.eqb c 102 then Some 12%N
  else if N.eqb c 110 then Some Ch.lf
  else if N.eqb c 114 then Some Ch.cr
  else if N.eqb c 116 then Some Ch.tab
  else None.

(** The characters of a string after its opening quote, up to and
    including the closing quote; [acc] holds the decoded units, last
    first. *)
Fixpoint parse_chars (s acc : jsstring) : presult jsstring :=
  match s with
  | [] => PSyntax []
  | c :: r =>
      if N.eqb c Ch.quote then POk (rev acc) r
      else if N.eqb c Ch.backslash then
        match r with
        | [] => PSyntax []
        | e :: r1 =>
            if N.eqb e 117 then
              match r1 with
              | h1 :: h2 :: h3 :: h4 :: r2 =>
                  match hex4 h1 h2 h3 h4 with
                  | Some u => parse_chars r2 (u :: acc)
                  | None => PSyntax r1
                  end
              | _ => PSyntax r1
              end
            else
              match simple_escape e with
              | Some u => parse_chars r1 (u :: acc)
              | None => PSyntax r
              end
        end
      else if N.ltb c 32 then PSyntax s
      else parse_chars r (c :: acc)
  end.

(** The longest run of decimal digits at the head of [s]. *)
Fixpoint span_digits (s : jsstring) : jsstring * jsstring :=
  match s with
  | c :: r =>
      if is_digit c then let (ds, rest) := span_digits r in (c :: ds, rest)
      else ([], s)
  | [] => ([], [])
  end.

(** [0] or a non-zero digit followed by digits. *)
Definition parse_int (s : jsstring) : presult jsstring :=
  match s with
  | c :: r =>
      if N.eqb c Ch.zero then POk [c] r
      else if is_digit c then
        let (ds, rest) := span_digits r in POk (c :: ds) rest
      else PSyntax s
  | [] => PSyntax []
  end.

Definition parse_frac (s : jsstring) : presult jsstring :=
  match s with
  | c :: r =>
      if N.eqb c Ch.dot then
        match span_digits r with
        | ([], _) => PSyntax r
        | (ds, rest) => POk (c :: ds) rest
        end
      else POk [] s
  | [] => POk [] []
  end.

Definition parse_exp (s : jsstring) : presult jsstring :=
  match s with
  | c :: r =>
      if N.eqb c 101 || N.eqb c 69 then
        let (sign, r1) :=
          match r with
          | g :: r' =>
              if N.eqb g Ch.plus || N.eqb g Ch.minus then ([g], r')
              else ([], r)
          | [] => ([], r)
          end in
        match span_digits r1 with
        | ([], _) => PSyntax r1
        | (ds, rest) => POk (c :: sign ++ ds) rest
        end
      else POk [] s
  | [] => POk [] []
  end.

(** A number token: optional minus, integer part, optional fraction,
    optional exponent. *)
Definition parse_number (s : jsstring) : presult jsstring :=
  let (sign, r0) :=
    match s with
    | c :: r => if N.eqb c Ch.minus then ([c], r) else ([], s)
    | [] => ([], s)
    end in
  match parse_int r0 with
  | POk i r1 =>
      match parse_frac r1 with
      | POk f r2 =>
          match parse_exp r2 with
          | POk e r3 => POk (sign ++ i ++ f ++ e) r3
          | PSyntax x => PSyntax x
          | PFuel => PFuel
          end
      | PSyntax x => PSyntax x
      | PFuel => PFuel
      end
  | PSyntax x => PSyntax x
  | PFuel => PFuel
  end.

Definition parse_literal (word : jsstring) (v : json) (s : jsstring)
  : presult json :=
  match strip_prefix word s with
  | Some rest => POk v rest
  | None => PSyntax s
  end.

Fixpoint parse_value (fuel : nat) (s : jsstring) {struct fuel}
  : presult json :=
  match fuel with
  | O => PFuel
  | S f =>
      match skip_ws s with
      | [] => PSyntax []
      | c :: r =>
          if N.eqb c Ch.lbrace then
            match skip_ws r with
            | [] => PSyntax []
            | c' :: r' =>
                if N.eqb c' Ch.rbrace then POk (JObject []) r'
                else parse_members f (c' :: r') []
            end
          else if N.eqb c Ch.lbracket then
            match skip_ws r with
            | [] => PSyntax []
            | c' :: r' =>
                if N.eqb c' Ch.rbracket then POk (JArray []) r'
                else parse_elements f (c' :: r') []
            end
          else if N.eqb c Ch.quote then
            match parse_chars r [] with
            | POk k r' => POk (JString k) r'
            | PSyntax x => PSyntax x
            | PFuel => PFuel
            end
          else if N.eqb c 116 then parse_literal (str "true") (JBool true) (c :: r)
          else if N.eqb c 102 then parse_literal (str "false") (JBool false) (c :: r)
          else if N.eqb c 110 then parse_literal (str "null") JNull (c :: r)
          else
            match parse_number (c :: r) with
            | POk n r' => POk (JNumber n) r'
            | PSyntax x => PSyntax x
            | PFuel => PFuel
            end
      end
  end

(** The elements of an array after [[]; [acc] holds those read so far,
    last first. *)
with parse_elements (fuel : nat) (s : jsstring) (acc : list json)
  {struct fuel} : presult json :=
  match fuel with
  | O => PFuel
  | S f =>
      match parse_value f s with
      | POk v r =>
          match skip_ws r with
          | [] => PSyntax []
          | c :: r' =>
              if N.eqb c Ch.comma then parse_elements f r' (v :: acc)
              else if N.eqb c Ch.rbracket then POk (JArray (rev (v :: acc))) r'
              else PSyntax (c :: r')
          end
      | PSyntax x => PSyntax x
      | PFuel => PFuel
      end
  end

(** The members of an object after [{]; [acc] holds the properties
    created so far. *)
with parse_members (fuel : nat) (s : jsstring)
  (acc : list (jsstring * json)) {struct fuel} : presult json :=
  match fuel with
  | O => PFuel
  | S f =>
      match skip_ws s with
      | [] => PSyntax []
      | q :: r =>
          if N.eqb q Ch.quote then
            match parse_chars r [] with
            | POk key r1 =>
                match skip_ws r1 with
                | [] => PSyntax []
                | col :: r2 =>
                    if N.eqb col Ch.colon then
                      match parse_value f r2 with
                      | POk v r3 =>
                          match skip_ws r3 with
                          | [] => PSyntax []
                          | c :: r4 =>
                              if N.eqb c Ch.comma then
                                parse_members f r4 (set_member key v acc)
                              else if N.eqb c Ch.rbrace then
                                POk (JObject (set_member key v acc)) r4
                              else PSyntax (c :: r4)
                          end
                      | PSyntax x => PSyntax x
                      | PFuel => PFuel
                      end
                    else PSyntax (col :: r2)
                end
            | PSyntax x => PSyntax x
            | PFuel => PFuel
            end
          else PSyntax (q :: r)
      end
  end.

(** Enough recursion budget for any text of this length (see
    [parse_value_budget] below). *)
Definition budget (s : jsstring) : nat := 2 * List.length s + 1.

End JSONParse.

(** The [SyntaxError] thrown by [JSON.parse]; the wording of its message is
    left to the engine, so only the offset of the failure is kept. *)
Record SyntaxError : Type := { position : nat }.

Definition JSON_parse (text : jsstring) : SyntaxError + json :=
  match JSONParse.parse_value (JSONParse.budget text) text with
  | JSONParse.POk v rest =>
      match JSONParse.skip_ws rest with
      | [] => inr v
      | extra => inl {| position := List.length text - List.length extra |}
      end
  | JSONParse.PSyntax rest => inl {| position := List.length text - List.length rest |}
  | JSONParse.PFuel => inl {| position := List.length text |}
  end.

(** A text of white space only. *)
Definition blank (s : jsstring) : bool := forallb JSONParse.is_ws s.

(** A code unit that cannot continue a number token: no digit, no
    decimal point, no exponent letter. *)
Definition number_stop (c : N) : bool :=
  negb (JSONParse.is_digit c) && negb (N.eqb c Ch.dot)
  && negb (N.eqb c 101) && negb (N.eqb c 69).

(** A continuation that leaves a number token before it as it is. *)
Definition stops (x : jsstring) : bool :=
  match x with
  | [] => true
  | c :: _ => number_stop c
  end.

(** The code units a JSON value can begin with: [{], [[], the quote, the
    minus sign, a digit, and the first letters of [true], [false] and
    [null]. *)
Definition starts_value (c : N) : bool :=
  N.eqb c Ch.lbrace || N.eqb c Ch.lbracket || N.eqb c Ch.quote
  || N.eqb c Ch.minus || JSONParse.is_digit c
  || N.eqb c 116 || N.eqb c 102 || N.eqb c 110.

(* ================================================================= *)
(** ** [JSON.stringify(value, null, space)] *)

(** Serialization of JSON data with a numeric [space], as the module calls
    it ([replacer] is [null]).  Follows [SerializeJSONProperty],
    [SerializeJSONObject], [SerializeJSONArray] and [QuoteJSONString] of
    the language standard.  A number is written as the token it holds:
    that is the built-in's output for the integer tokens of
    [safe_integer_token] below and not for others ([1.0] is written [1],
    a number beyond the doubles [null]).  The module serializes its
    schema only, which holds no number; the statements below that range
    over values are restricted to [portable] ones of bounded depth. *)
Module JSONStringify.

Definition hex_digit (n : N) : N :=
  if N.ltb n 10 then (48 + n)%N else (87 + n)%N.

(** [\uXXXX] with lower-case hexadecimal digits. *)
Definition unicode_escape (c : N) : jsstring :=
  [Ch.backslash; 117%N;
   hex_digit (N.modulo (N.div c 4096) 16); hex_digit (N.modulo (N.div c 256) 16);
   hex_digit (N.modulo (N.div c 16) 16); hex_digit (N.modulo c 16)].

Definition is_high_surrogate (c : N) : bool := N.leb 55296 c && N.leb c 56319.
Definition is_low_surrogate (c : N) : bool := N.leb 56320 c && N.leb c 57343.

(** One code unit that is not a surrogate. *)
Definition quote_unit (c : N) : jsstring :=
  if N.eqb c 8 then [Ch.backslash; 98%N]
  else if N.eqb c Ch.tab then [Ch.backslash; 116%N]
  else if N.eqb c Ch.lf then [Ch.backslash; 110%N]
  else if N.eqb c 12 then [Ch.backslash; 102%N]
  else if N.eqb c Ch.cr then [Ch.backslash; 114%N]
  else if N.eqb c Ch.quote then [Ch.backslash; Ch.quote]
  else if N.eqb c Ch.backslash then [Ch.backslash; Ch.backslash]
  else if N.ltb c 32 then unicode_escape c
  else [c].

(** The body of a quoted string; a surrogate pair is copied, a lone
    surrogate is escaped. *)
Fixpoint quote_body (s : jsstring) : jsstring :=
  match s with
  | [] => []
  | c :: r =>
      if is_high_surrogate c then
        match r with
        | d :: r' =>
            if is_low_surrogate d then c :: d :: quote_body r'
            else unicode_escape c ++ quote_body r
        | [] => unicode_escape c
        end
      else if is_low_surrogate c then unicode_escape c ++ quote_body r
      else quote_unit c ++ quote_body r
  end.

Definition QuoteJSONString (s : jsstring) : jsstring :=
  Ch.quote :: quote_body s ++ [Ch.quote].

(** [parts.join(sep)]. *)
Fixpoint join (sep : jsstring) (parts : list jsstring) : jsstring :=
  match parts with
  | [] => []
  | [p] => p
  | p :: rest => p ++ sep ++ join sep rest
  end.

(** An object or array with its parts already serialized: on one line
    when [gap] is empty, otherwise one part per line at [indent ++ gap]
    and the closing bracket back at [indent]. *)
Definition wrap (opening closing : N) (indent gap : jsstring)
  (parts : list jsstring) : jsstring :=
  match parts with
  | [] => [opening; closing]
  | _ =>
      match gap with
      | [] => opening :: join [Ch.comma] parts ++ [closing]
      | _ =>
          let inner := indent ++ gap in
          opening :: Ch.lf :: inner
            ++ join (Ch.comma :: Ch.lf :: inner) parts
            ++ Ch.lf :: indent ++ [closing]
      end
  end.

Definition member_text (gap key value : jsstring) : jsstring :=
  QuoteJSONString key ++ Ch.colon
    :: match gap with [] => [] | _ => [Ch.space] end ++ value.

Fixpoint serialize (gap indent : jsstring) (v : json) : jsstring :=
  match v with
  | JNull => str "null"
  | JBool true => str "true"
  | JBool false => str "false"
  | JNumber token => token
  | JString s => QuoteJSONString s
  | JArray elements =>
      wrap Ch.lbracket Ch.rbracket indent gap
        (map (serialize gap (indent ++ gap)) elements)
  | JObject members =>
      wrap Ch.lbrace Ch.rbrace indent gap
        ((fix each (ms : list (jsstring * json)) : list jsstring :=
            match ms with
            | [] => []
            | (k, w) :: rest =>
                member_text gap k (serialize gap (indent ++ gap) w)
                  :: each rest
            end) members)
  end.

End JSONStringify.

(** [space] is clamped to 10 and gives a gap of that many spaces. *)
Definition JSON_stringify (value : json) (space : nat) : jsstring :=
  JSONStringify.serialize (repeat Ch.space (Nat.min 10 space)) [] value.

(** *** Data that [JSON.stringify] writes and [JSON.parse] reads back *)

(** A number holds a token of the JSON grammar. *)
Definition number_token (t : jsstring) : bool :=
  match JSONParse.parse_number t with
  | JSONParse.POk n [] => jsstring_eqb n t
  | _ => false
  end.

Fixpoint distinct (keys : list jsstring) : bool :=
  match keys with
  | [] => true
  | key :: others =>
      negb (existsb (jsstring_eqb key) others) && distinct others
  end.

(** Numbers hold number tokens and no object has a key twice: the
    condition under which the parser of this model reads back what its
    serializer writes.  It speaks of the model's tokens; [portable] below
    is the part of it on which the engines agree. *)
Fixpoint well_formed (v : json) : bool :=
  match v with
  | JNull => true
  | JBool _ => true
  | JNumber t => number_token t
  | JString _ => true
  | JArray elements => forallb well_formed elements
  | JObject members =>
      distinct (map fst members)
      && (fix each (ms : list (jsstring * json)) : bool :=
            match ms with
            | [] => true
            | (_, w) :: others => well_formed w && each others
            end) members
  end.

(** *** Data on which the model and the engines agree *)

(** A decimal integer without sign or leading zero, of at most 15
    digits: below 2^53, so the double holds it exactly, and below 10^21,
    so the built-in writes it in plain digits. *)
Definition natural_token (ds : jsstring) : bool :=
  match ds with
  | [] => false
  | c :: rest =>
      N.leb 49 c && N.leb c 57 && forallb JSONParse.is_digit rest
      && Nat.leb (List.length ds) 15
  end.

(** The number tokens [JSON.stringify] writes back as they were read:
    [0], and the integers above with an optional minus sign. *)
Definition safe_integer_token (t : jsstring) : bool :=
  jsstring_eqb t [Ch.zero] || natural_token t
  || match t with
     | c :: ds => N.eqb c Ch.minus && natural_token ds
     | [] => false
     end.

(** A key made of digits only, which an engine lists before the other
    keys of an object whatever the order of creation. *)
Definition index_like (key : jsstring) : bool :=
  match key with
  | [] => false
  | _ :: _ => forallb JSONParse.is_digit key
  end.

(** A string of UTF-16 code units. *)
Definition code_units (s : jsstring) : bool :=
  forallb (fun c => N.ltb c 65536) s.

(** Values for which the lists of this model are the engine's objects
    and the tokens are the engine's numbers: strings and keys of 16-bit
    units, integers as above, no key twice and no key made of digits. *)
Fixpoint portable (v : json) : bool :=
  match v with
  | JNull => true
  | JBool _ => true
  | JNumber t => safe_integer_token t
  | JString s => code_units s
  | JArray elements => forallb portable elements
  | JObject members =>
      distinct (map fst members)
      && forallb (fun key => code_units key && negb (index_like key))
           (map fst members)
      && (fix each (ms : list (jsstring * json)) : bool :=
            match ms with
            | [] => true
            | (_, w) :: others => portable w && each others
            end) members
  end.

(** How deep arrays and objects are nested. *)
Fixpoint depth (v : json) : nat :=
  match v with
  | JArray elements => S (fold_right Nat.max 0 (map depth elements))
  | JObject members =>
      S ((fix each (ms : list (jsstring * json)) : nat :=
            match ms with
            | [] => 0
            | (_, w) :: others => Nat.max (depth w) (each others)
            end) members)
  | _ => 0
  end.

(** Engines refuse very deep nesting with a [RangeError]; their limits
    lie in the thousands of levels. *)
Definition nesting_limit : nat := 100.

(** With enough budget, [text] is read as [v] and [x] is left over. *)
Definition reads (text : jsstring) (v : json) (x : jsstring) : Prop :=
  exists f0, forall f, f0 <= f ->
    JSONParse.parse_value f text = JSONParse.POk v x.

(* ================================================================= *)
(** ** Values of the module *)

(** A property that may hold [undefined] or [null] instead of a value;
    the optional chain [?.] stops at either. *)
Inductive nullable (A : Type) : Type :=
| Undefined
| Null
| Present (a : A).
Arguments Undefined {A}.
Arguments Null {A}.

(** [interface Message]. *)
Record Message : Type := { role : jsstring; content : jsstring }.

(** The argument of [ollama.chat]. *)
Record ChatRequest : Type := { model : jsstring; messages : list Message }.

(** The three failure classes of the specification. *)
Inductive FailureKind : Type :=
| InvalidResponseStructure
| ParseFailure
| RequestFailure.

Section CityInsights.

(** The [ollama] package is not part of the module.  Of its
    [ChatResponse] only [message] is read; the other properties are kept
    whole in [rest].  What its client rejects with is opaque too. *)
Variable ResponseRest : Type.
Variable ClientError : Type.

(** The message of a reply as it is at run time: [isValidResponse] exists
    because [content], and [message] itself, may be missing. *)
Record ReplyMessage : Type :=
  { reply_role : jsstring; reply_content : nullable jsstring }.

Record ChatResponse : Type :=
  { message : nullable ReplyMessage; rest : ResponseRest }.

(** How the promise returned by [ollama.chat] settles. *)
Inductive ChatOutcome : Type :=
| Resolves (response : ChatResponse)
| Rejects (reason : ClientError).

(** The client: [new Ollama({ host }).chat(request)]. *)
Variable ollama_chat : jsstring -> ChatRequest -> ChatOutcome.

(** The values that are thrown, attached as [cause], or logged. *)
#[warnings="-register-all"]
Inductive jsvalue : Type :=
| VJson (v : json)
| VResponse (response : ChatResponse)
| VSyntaxError (e : SyntaxError)
| VClientError (reason : ClientError)
(** the literal [{ cause: parseError, rawResponse: jsonString }] *)
| VParseDetails (cause : jsvalue) (rawResponse : jsstring)
(** an instance of [class ChatResponseError] *)
| VChatResponseError (name message : jsstring) (cause : option jsvalue).

(** [new ChatResponseError(message, cause)]: the constructor sets [name];
    [cause] is optional. *)
Definition ChatResponseError (message : jsstring) (cause : option jsvalue)
  : jsvalue :=
  VChatResponseError (str "ChatResponseError") message cause.

Definition error_name (e : jsvalue) : option jsstring :=
  match e with VChatResponseError n _ _ => Some n | _ => None end.

Definition error_message (e : jsvalue) : option jsstring :=
  match e with VChatResponseError _ m _ => Some m | _ => None end.

Definition error_cause (e : jsvalue) : option jsvalue :=
  match e with VChatResponseError _ _ c => c | _ => None end.

(* --------------------------------------------------------------- *)
(** *** Console and exceptions *)

Inductive Stream : Type := Log | Error.

Record ConsoleLine : Type :=
  { stream : Stream; label : jsstring; payload : jsvalue }.

Definition Console : Type := list ConsoleLine.

Inductive completion (A : Type) : Type :=
| Return (a : A)
| Throw (e : jsvalue).
Arguments Throw {A} e.

(** A computation that may write to the console and may throw.  An
    [async] function is read the same way: its promise resolves with the
    returned value or rejects with the thrown one. *)
Definition M (A : Type) : Type := Console -> completion A * Console.

Definition ret {A : Type} (a : A) : M A := fun k => (Return a, k).

Definition throw {A : Type} (e : jsvalue) : M A := fun k => (Throw e, k).

Definition bind {A B : Type} (m : M A) (f : A -> M B) : M B :=
  fun k =>
    match m k with
    | (Return a, k') => f a k'
    | (Throw e, k') => (Throw e, k')
    end.

(** [try { body } catch (error) { handler }]. *)
Definition try_catch {A : Type} (body : M A) (handler : jsvalue -> M A)
  : M A :=
  fun k =>
    match body k with
    | (Return a, k') => (Return a, k')
    | (Throw e, k') => handler e k'
    end.

Definition console_log (l : jsstring) (v : jsvalue) : M unit :=
  fun k => (Return tt, k ++ [{| stream := Log; label := l; payload := v |}]).

Definition console_error (l : jsstring) (v : jsvalue) : M unit :=
  fun k => (Return tt, k ++ [{| stream := Error; label := l; payload := v |}]).

(** What the caller of a computation receives. *)
Definition outcome {A : Type} (m : M A) (k : Console) : completion A :=
  fst (m k).

Definition written {A : Type} (m : M A) (k : Console) : Console :=
  snd (m k).

Notation "x <- m ;; f" := (bind m (fun x => f))
  (at level 61, m at next level, right associativity).
Notation "m ;;; f" := (bind m (fun _ => f))
  (at level 61, right associativity).

(* --------------------------------------------------------------- *)
(** *** The functions of [index.ts] *)

(** [JSON.parse(text)], throwing its [SyntaxError]. *)
Definition JSON_parse_call (text : jsstring) : M json :=
  match JSON_parse text with
  | inr v => ret v
  | inl e => throw (VSyntaxError e)
  end.

(** [function safeJsonParse(jsonString)].  The cast [as ChatSchema] has
    no run-time effect: whatever [JSON.parse] returns is returned. *)
Definition safeJsonParse (jsonString : jsstring) : M json :=
  try_catch (JSON_parse_call jsonString)
    (fun parseError =>
       throw (ChatResponseError (str "Failed to parse JSON")
                (Some (VParseDetails parseError jsonString)))).

(** The two fixed parts of the system prompt, around the schema. *)
Definition prompt_head : jsstring :=
  str "You are an assistant that provides detailed information about cities. When given a city name, describe the city including its major industry and one fun activity to do there. Ensure the response is strictly in JSON format adhering to the following schema:"
    ++ Ch.lf :: str "      " ++ [Ch.lf].

Definition prompt_tail : jsstring :=
  Ch.lf :: str "      " ++ Ch.lf
    :: str "Do not include any additional text or explanations outside of the JSON object.".

(** [function constructMessages(city, schema)]. *)
Definition constructMessages (city : jsstring) (schema : json)
  : list Message :=
  [ {| role := str "system";
       content := prompt_head ++ JSON_stringify schema 2 ++ prompt_tail |};
    {| role := str "user"; content := city |} ].

(** What the parameter [schema: object] may be at run time: plain data,
    as the descriptor in [getChatResponse] is, or an object whose
    serialization runs code of its own (a [toJSON] method, getters).
    Such code may use the console, may throw, and may answer differently
    each time it runs. *)
Inductive SchemaObject : Type :=
| PlainData (v : json)
| Hooked (toJSON : M json).

(** [JSON.stringify(schema, null, space)] on such an object: the object's
    own code runs first, and what it yields is serialized. *)
Definition JSON_stringify_call (schema : SchemaObject) (space : nat)
  : M jsstring :=
  match schema with
  | PlainData v => ret (JSON_stringify v space)
  | Hooked toJSON => v <- toJSON ;; ret (JSON_stringify v space)
  end.

(** [function constructMessages(city, schema)] as a computation, with
    every effect it could have made explicit. *)
Definition constructMessages_call (city : jsstring) (schema : SchemaObject)
  : M (list Message) :=
  text <- JSON_stringify_call schema 2 ;;
  ret [ {| role := str "system";
           content := prompt_head ++ text ++ prompt_tail |};
        {| role := str "user"; content := city |} ].

(** [response.message?.content]. *)
Definition optional_content (response : ChatResponse) : nullable jsstring :=
  match message response with
  | Present m => reply_content m
  | Undefined => Undefined
  | Null => Undefined
  end.

(** [!!v] for a value that is a string, [undefined] or [null]. *)
Definition truthy (v : nullable jsstring) : bool :=
  match v with
  | Present (_ :: _) => true
  | Present [] => false
  | Undefined => false
  | Null => false
  end.

(** [function isValidResponse(response)]. *)
Definition isValidResponse (response : ChatResponse) : bool :=
  truthy (optional_content response).

(** [response.message.content], read only where [isValidResponse] has
    narrowed it to a string (see [isValidResponse_content]). *)
Definition message_content (response : ChatResponse) : jsstring :=
  match optional_content response with
  | Present c => c
  | Undefined => []
  | Null => []
  end.

(** The constants of [getChatResponse]. *)
Definition host : jsstring := str "http://127.0.0.1:11434".

Definition field (description : string) : json :=
  JObject [ (str "type", JString (str "string"));
            (str "description", JString (str description)) ].

Definition schema : json :=
  JObject
    [ (str "city", field "The city where the user is located.");
      (str "industry",
        field "The most popular industry in the city. What the city is known for.");
      (str "fun", field "One thing that is fun to do there on a day off.") ].

Definition chat_request (city : jsstring) : ChatRequest :=
  {| model := str "gemma:2b"; messages := constructMessages city schema |}.

(** [await ollama.chat(request)]: a rejection is thrown at the [await]. *)
Definition await_chat (request : ChatRequest) : M ChatResponse :=
  match ollama_chat host request with
  | Resolves response => ret response
  | Rejects reason => throw (VClientError reason)
  end.

(** The [if]/[else] of [getChatResponse] on the reply: what the
    specification calls [validateAndParse]. *)
Definition validateAndParse (response : ChatResponse) : M json :=
  if isValidResponse response then
    parsedResponse <- safeJsonParse (message_content response) ;;
    console_log (str "Parsed Chat Response:") (VJson parsedResponse) ;;;
    ret parsedResponse
  else
    throw (ChatResponseError (str "Invalid response structure")
             (Some (VResponse response))).

(** The [try] block of [getChatResponse]. *)
Definition getChatResponse_try (city : jsstring) : M json :=
  response <- await_chat (chat_request city) ;;
  console_log (str "Raw ChatResponse:") (VResponse response) ;;;
  validateAndParse response.

Definition failure_prefix : jsstring :=
  str "Failed to get chat response for city: ".

(** Its [catch (error)] block. *)
Definition getChatResponse_catch (city : jsstring) (error : jsvalue)
  : M json :=
  console_error (str "Error fetching chat response:") error ;;;
  throw (ChatResponseError (failure_prefix ++ city) (Some error)).

(** [async function getChatResponse(city)]. *)
Definition getChatResponse (city : jsstring) : M json :=
  try_catch (getChatResponse_try city) (getChatResponse_catch city).


(** The lines [console.log(l, v)] and [console.error(l, v)] write. *)
Definition log_line (l : jsstring) (v : jsvalue) : ConsoleLine :=
  {| stream := Log; label := l; payload := v |}.

Definition error_line (l : jsstring) (v : jsvalue) : ConsoleLine :=
  {| stream := Error; label := l; payload := v |}.

(** [err.cause.cause] of an error the caller receives. *)
Definition inner_cause (err : jsvalue) : option jsvalue :=
  match error_cause err with
  | Some inner => error_cause inner
  | None => None
  end.

(** [err.cause.cause.rawResponse]. *)
Definition rawResponse_of (err : jsvalue) : option jsstring :=
  match inner_cause err with
  | Some (VParseDetails _ raw) => Some raw
  | _ => None
  end.

(* --------------------------------------------------------------- *)
(** *** The failure classes, read off a run *)

(** The class of the failure of [getChatResponse city], by the place where
    it arises; [None] when the call succeeds. *)
Definition failure_kind (city : jsstring) : option FailureKind :=
  match ollama_chat host (chat_request city) with
  | Rejects _ => Some RequestFailure
  | Resolves response =>
      if isValidResponse response then
        match JSON_parse (message_content response) with
        | inl _ => Some ParseFailure
        | inr _ => None
        end
      else Some InvalidResponseStructure
  end.

(** The three errors the module constructs: the one [safeJsonParse]
    throws for a given [SyntaxError], the one thrown for a reply without
    usable text, and the one handed to the caller around [inner]. *)
Definition parse_failure (pe : SyntaxError) (text : jsstring) : jsvalue :=
  ChatResponseError (str "Failed to parse JSON")
    (Some (VParseDetails (VSyntaxError pe) text)).

Definition invalid_structure (response : ChatResponse) : jsvalue :=
  ChatResponseError (str "Invalid response structure")
    (Some (VResponse response)).

Definition wrapper (city : jsstring) (inner : jsvalue) : jsvalue :=
  ChatResponseError (failure_prefix ++ city) (Some inner).

(** What a caller can tell from the [cause] of the error it receives:
    [cause instanceof ChatResponseError], then its [message]. *)
Definition kind_of_cause (cause : jsvalue) : FailureKind :=
  match cause with
  | VChatResponseError _ m _ =>
      if jsstring_eqb m (str "Invalid response structure")
      then InvalidResponseStructure
      else ParseFailure
  | _ => RequestFailure
  end.

(** The city read back from the message of the error a caller receives. *)
Definition queried_city (e : jsvalue) : option jsstring :=
  match error_message e with
  | Some m => strip_prefix failure_prefix m
  | None => None
  end.

(** A reply has no usable text: [message] or [content] is missing, or
    [content] is the empty string. *)
Definition absent_or_empty (response : ChatResponse) : Prop :=
  message response = Undefined \/ message response = Null
  \/ optional_content response = Undefined
  \/ optional_content response = Null
  \/ optional_content response = Present [].

End CityInsights.

Arguments Throw {ResponseRest ClientError A} e.
Arguments Return {ResponseRest ClientError A} a.
Arguments ret {ResponseRest ClientError A} a _.
Arguments throw {ResponseRest ClientError A} e _.
Arguments VJson {ResponseRest ClientError} v.
Arguments VSyntaxError {ResponseRest ClientError} e.
Arguments VResponse {ResponseRest ClientError} response.
Arguments VClientError {ResponseRest ClientError} reason.
Arguments Resolves {ResponseRest ClientError} response.
Arguments Rejects {ResponseRest ClientError} reason.
Arguments safeJsonParse {ResponseRest ClientError} jsonString _.
Arguments validateAndParse {ResponseRest ClientError} response _.
Arguments parse_failure {ResponseRest ClientError} pe text.
Arguments invalid_structure {ResponseRest ClientError} response.
Arguments wrapper {ResponseRest ClientError} city inner.
Arguments log_line {ResponseRest ClientError} l v.
Arguments PlainData {ResponseRest ClientError} v.
Arguments Hooked {ResponseRest ClientError} toJSON.
Arguments bind {ResponseRest ClientError A B} m f _.
Arguments error_line {ResponseRest ClientError} l v.

(* ================================================================= *)
(** ** Texts and transports used in the statements *)

Definition quoted (s : jsstring) : jsstring := Ch.quote :: s ++ [Ch.quote].

(** The text [{"city":"X","industry":"Y","fun":"Z"}] for given [X], [Y]
    and [Z]. *)
Definition city_info_text (X Y Z : jsstring) : jsstring :=
  Ch.lbrace :: quoted (str "city") ++ Ch.colon :: quoted X
    ++ Ch.comma :: quoted (str "industry") ++ Ch.colon :: quoted Y
    ++ Ch.comma :: quoted (str "fun") ++ Ch.colon :: quoted Z
    ++ [Ch.rbrace].

(** The object [{ city: X, industry: Y, fun: Z }]. *)
Definition city_info (X Y Z : jsstring) : json :=
  JObject [ (str "city", JString X); (str "industry", JString Y);
            (str "fun", JString Z) ].

(** A string whose units a JSON string literal carries as they are: no
    quote, no backslash, no control character. *)
Definition plain (s : jsstring) : bool :=
  forallb (fun c => negb (N.eqb c Ch.quote) && negb (N.eqb c Ch.backslash)
                    && N.leb 32 c) s.

(** A JSON text written with apostrophes in place of double quotes. *)
Definition json_literal (s : string) : jsstring :=
  map (fun c => if N.eqb c 39 then Ch.quote else c) (str s).

(** The system message of [getChatResponse], written out. *)
Definition system_prompt : jsstring :=
  json_literal "You are an assistant that provides detailed information about cities. When given a city name, describe the city including its major industry and one fun activity to do there. Ensure the response is strictly in JSON format adhering to the following schema:
      
{
  'city': {
    'type': 'string',
    'description': 'The city where the user is located.'
  },
  'industry': {
    'type': 'string',
    'description': 'The most popular industry in the city. What the city is known for.'
  },
  'fun': {
    'type': 'string',
    'description': 'One thing that is fun to do there on a day off.'
  }
}
      
Do not include any additional text or explanations outside of the JSON object.".

Module Demo.

(** Replies carry the model name as their remaining property; the client
    rejects with an error message. *)
Definition Response : Type := ChatResponse jsstring.
Definition Outcome : Type := ChatOutcome jsstring jsstring.

Definition reply (c : nullable jsstring) : Response :=
  {| message := Present {| reply_role := str "assistant"; reply_content := c |};
     rest := str "gemma:2b" |}.

Definition no_message : Response :=
  {| message := Undefined; rest := str "gemma:2b" |}.

(** A client that answers every request with the given text. *)
Definition answering (text : jsstring) (_ : jsstring) (_ : ChatRequest)
  : Outcome := Resolves (reply (Present text)).

(** A client whose reply has no message. *)
Definition silent (_ : jsstring) (_ : ChatRequest) : Outcome :=
  Resolves no_message.

(** A client that cannot reach the server. *)
Definition unreachable (_ : jsstring) (_ : ChatRequest) : Outcome :=
  Rejects (str "fetch failed").

(** A client that answers on the local endpoint only, and only a request
    for the model it serves with two messages. *)
Definition only_local (h : jsstring) (request : ChatRequest) : Outcome :=
  if jsstring_eqb h (str "http://127.0.0.1:11434")
     && jsstring_eqb (model request) (str "gemma:2b")
     && Nat.eqb (List.length (messages request)) 2
  then Resolves (reply (Present (str "{}")))
  else Rejects (str "not served").

Definition london : jsstring := str "London".

(** The console before the call. *)
Definition start : Console jsstring jsstring := [].

(** A reply the way models often send it: the JSON inside a code fence. *)
Definition fenced_text : jsstring :=
  str "```json" ++ Ch.lf :: str "{}" ++ Ch.lf :: str "```".

(** The London reply with a line break before and after. *)
Definition padded_london_text : jsstring :=
  Ch.lf :: json_literal "{'city':'London','industry':'Finance','fun':'Visit the British Museum'}"
    ++ [Ch.cr; Ch.lf].

Definition london_text : jsstring :=
  json_literal "{'city':'London','industry':'Finance','fun':'Visit the British Museum'}".

End Demo.

(* ================================================================= *)
(** ** Facts about [JSON.parse] *)

Module JSONParseFacts.
Import JSONParse.

#[local] Arguments N.eqb : simpl never.
#[local] Arguments N.leb : simpl never.
#[local] Arguments N.ltb : simpl never.
#[local] Arguments str : simpl never.

Lemma skip_ws_length (s : jsstring) :
  List.length (skip_ws s) <= List.length s.
Proof.
  induction s as [|c r IH]; simpl; [lia|].
  destruct (is_ws c); simpl; lia.
Qed.

Lemma strip_prefix_length (p : jsstring) :
  forall s r, strip_prefix p s = Some r -> List.length r <= List.length s.
Proof.
  induction p as [|a p IH]; intros s r H; simpl in H.
  - destruct s; inversion H; subst; lia.
  - destruct s as [|b s]; [discriminate|].
    destruct (N.eqb a b); [|discriminate].
    apply IH in H. simpl. lia.
Qed.

Lemma strip_prefix_app (p s : jsstring) : strip_prefix p (p ++ s) = Some s.
Proof.
  induction p as [|a p IH]; simpl.
  - now destruct s.
  - now rewrite N.eqb_refl.
Qed.

(** A string literal is consumed up to its closing quote: what is left is
    strictly shorter. *)
Lemma parse_chars_length :
  forall n s acc x r,
    List.length s <= n -> parse_chars s acc = POk x r ->
    List.length r < List.length s.
Proof.
  induction n as [|n IH]; intros s acc x r Hn H.
  - destruct s; [discriminate | simpl in Hn; lia].
  - destruct s as [|c s]; [discriminate|]. simpl in Hn, H.
    destruct (N.eqb c Ch.quote).
    { inversion H; subst. simpl. lia. }
    destruct (N.eqb c Ch.backslash).
    { destruct s as [|e r1]; [discriminate|].
      destruct (N.eqb e 117).
      - destruct r1 as [|h1 [|h2 [|h3 [|h4 r2]]]]; try discriminate.
        destruct (hex4 h1 h2 h3 h4); [|discriminate].
        apply IH in H; simpl in *; lia.
      - destruct (simple_escape e); [|discriminate].
        apply IH in H; simpl in *; lia. }
    destruct (N.ltb c 32); [discriminate|].
    apply IH in H; simpl; lia.
Qed.

Lemma parse_chars_no_fuel :
  forall n s acc, List.length s <= n -> parse_chars s acc <> PFuel.
Proof.
  induction n as [|n IH]; intros s acc Hn.
  - destruct s; [discriminate | simpl in Hn; lia].
  - destruct s as [|c s]; [discriminate|]. simpl in Hn |- *.
    destruct (N.eqb c Ch.quote); [discriminate|].
    destruct (N.eqb c Ch.backslash).
    { destruct s as [|e r1]; [discriminate|].
      destruct (N.eqb e 117).
      - destruct r1 as [|h1 [|h2 [|h3 [|h4 r2]]]]; try discriminate.
        destruct (hex4 h1 h2 h3 h4); [|discriminate].
        apply IH; simpl in *; lia.
      - destruct (simple_escape e); [|discriminate].
        apply IH; simpl in *; lia. }
    destruct (N.ltb c 32); [discriminate|].
    apply IH; lia.
Qed.

Lemma span_digits_length (s : jsstring) :
  List.length (snd (span_digits s)) <= List.length s.
Proof.
  induction s as [|c r IH]; simpl; [lia|].
  destruct (is_digit c); simpl; [|lia].
  destruct (span_digits r); simpl in *; lia.
Qed.

Lemma parse_int_length (s x r : jsstring) :
  parse_int s = POk x r -> List.length r <= List.length s.
Proof.
  unfold parse_int. destruct s as [|c s]; [discriminate|].
  destruct (N.eqb c Ch.zero).
  { intros H; inversion H; subst; simpl; lia. }
  destruct (is_digit c); [|discriminate].
  pose proof (span_digits_length s) as L.
  destruct (span_digits s); simpl in L.
  intros H; inversion H; subst; simpl; lia.
Qed.

Lemma parse_frac_length (s x r : jsstring) :
  parse_frac s = POk x r -> List.length r <= List.length s.
Proof.
  unfold parse_frac. destruct s as [|c s].
  { intros H; inversion H; subst; simpl; lia. }
  destruct (N.eqb c Ch.dot).
  - pose proof (span_digits_length s) as L.
    destruct (span_digits s) as [[|d ds] rest]; simpl in L; [discriminate|].
    intros H; inversion H; subst; simpl; lia.
  - intros H; inversion H; subst; simpl; lia.
Qed.

Lemma parse_exp_length (s x r : jsstring) :
  parse_exp s = POk x r -> List.length r <= List.length s.
Proof.
  unfold parse_exp. destruct s as [|c s].
  { intros H; inversion H; subst; simpl; lia. }
  destruct (N.eqb c 101 || N.eqb c 69).
  - assert (forall sign r1 : jsstring, List.length r1 <= List.length s ->
              match span_digits r1 with
              | ([], _) => PSyntax r1
              | (ds, rest) => POk (c :: sign ++ ds) rest
              end = POk x r -> List.length r <= List.length (c :: s)) as K.
    { intros sign r1 L1.
      pose proof (span_digits_length r1) as L.
      destruct (span_digits r1) as [[|d ds] rest]; simpl in L; [discriminate|].
      intros H; inversion H; subst; simpl; lia. }
    destruct s as [|g r']; [apply K; simpl; lia|].
    destruct (N.eqb g Ch.plus || N.eqb g Ch.minus); apply K; simpl; lia.
  - intros H; inversion H; subst; simpl; lia.
Qed.

Lemma parse_number_length (s x r : jsstring) :
  parse_number s = POk x r -> List.length r <= List.length s.
Proof.
  unfold parse_number.
  assert (forall sign r0 : jsstring, List.length r0 <= List.length s ->
            match parse_int r0 with
            | POk i r1 =>
                match parse_frac r1 with
                | POk f r2 =>
                    match parse_exp r2 with
                    | POk e r3 => POk (sign ++ i ++ f ++ e) r3
                    | PSyntax x => PSyntax x
                    | PFuel => PFuel
                    end
                | PSyntax x => PSyntax x
                | PFuel => PFuel
                end
            | PSyntax x => PSyntax x
            | PFuel => PFuel
            end = POk x r -> List.length r <= List.length s) as K.
  { intros sign r0 L0.
    destruct (parse_int r0) as [i r1| |] eqn:Ei; try discriminate.
    destruct (parse_frac r1) as [f r2| |] eqn:Ef; try discriminate.
    destruct (parse_exp r2) as [e r3| |] eqn:Ee; try discriminate.
    apply parse_int_length in Ei. apply parse_frac_length in Ef.
    apply parse_exp_length in Ee.
    intros H; inversion H; subst; lia. }
  destruct s as [|c s']; [apply K; lia|].
  destruct (N.eqb c Ch.minus); apply K; simpl; lia.
Qed.

Lemma parse_int_no_fuel (s : jsstring) : parse_int s <> PFuel.
Proof.
  unfold parse_int. destruct s as [|c s]; [discriminate|].
  destruct (N.eqb c Ch.zero); [discriminate|].
  destruct (is_digit c); [|discriminate].
  destruct (span_digits s); discriminate.
Qed.

Lemma parse_frac_no_fuel (s : jsstring) : parse_frac s <> PFuel.
Proof.
  unfold parse_frac. destruct s as [|c s]; [discriminate|].
  destruct (N.eqb c Ch.dot); [|discriminate].
  destruct (span_digits s) as [[|d ds] rest]; discriminate.
Qed.

Lemma parse_exp_no_fuel (s : jsstring) : parse_exp s <> PFuel.
Proof.
  unfold parse_exp. destruct s as [|c s]; [discriminate|].
  destruct (N.eqb c 101 || N.eqb c 69); [|discriminate].
  destruct s as [|g r'].
  - destruct (span_digits []) as [[|d ds] rest]; discriminate.
  - destruct (N.eqb g Ch.plus || N.eqb g Ch.minus).
    + destruct (span_digits r') as [[|d ds] rest]; discriminate.
    + destruct (span_digits (g :: r')) as [[|d ds] rest]; discriminate.
Qed.

Lemma parse_number_no_fuel (s : jsstring) : parse_number s <> PFuel.
Proof.
  unfold parse_number.
  destruct (match s with
            | [] => ([], s)
            | c :: r => if N.eqb c Ch.minus then ([c], r) else ([], s)
            end) as [sign r0].
  pose proof (parse_int_no_fuel r0).
  destruct (parse_int r0) as [i r1| |]; try discriminate; [|contradiction].
  pose proof (parse_frac_no_fuel r1).
  destruct (parse_frac r1) as [f r2| |]; try discriminate; [|contradiction].
  pose proof (parse_exp_no_fuel r2).
  destruct (parse_exp r2) as [e r3| |]; try discriminate; contradiction.
Qed.

#[local] Arguments parse_number : simpl never.
#[local] Arguments parse_literal : simpl never.
#[local] Arguments parse_chars : simpl never.

(** No parser hands back more input than it was given. *)
Lemma parse_length (f : nat) :
  (forall s v r, parse_value f s = POk v r ->
                 List.length r <= List.length s)
  /\ (forall s acc v r, parse_elements f s acc = POk v r ->
                        List.length r <= List.length s)
  /\ (forall s acc v r, parse_members f s acc = POk v r ->
                        List.length r <= List.length s).
Proof.
  induction f as [|f (IHv & IHe & IHm)].
  { repeat split; intros; discriminate. }
  repeat split.
  - intros s v r H. simpl in H.
    pose proof (skip_ws_length s) as Ls.
    destruct (skip_ws s) as [|c r0]; [discriminate|]. simpl in Ls.
    destruct (N.eqb c Ch.lbrace).
    { pose proof (skip_ws_length r0) as Lr.
      destruct (skip_ws r0) as [|c' r']; [discriminate|]. simpl in Lr.
      destruct (N.eqb c' Ch.rbrace).
      - inversion H; subst; lia.
      - apply IHm in H. simpl in H. lia. }
    destruct (N.eqb c Ch.lbracket).
    { pose proof (skip_ws_length r0) as Lr.
      destruct (skip_ws r0) as [|c' r']; [discriminate|]. simpl in Lr.
      destruct (N.eqb c' Ch.rbracket).
      - inversion H; subst; lia.
      - apply IHe in H. simpl in H. lia. }
    destruct (N.eqb c Ch.quote).
    { destruct (parse_chars r0 []) as [k r'| |] eqn:Ek; try discriminate.
      apply (parse_chars_length (n := List.length r0)) in Ek; [|lia].
      inversion H; subst; lia. }
    assert (forall w j, parse_literal w j (c :: r0) = POk v r ->
                        List.length r <= List.length s) as K.
    { unfold parse_literal. intros w j E.
      destruct (strip_prefix w (c :: r0)) as [t|] eqn:Et; [|discriminate].
      apply strip_prefix_length in Et. inversion E; subst.
      simpl in Et. lia. }
    destruct (N.eqb c 116); [now apply K in H|].
    destruct (N.eqb c 102); [now apply K in H|].
    destruct (N.eqb c 110); [now apply K in H|].
    destruct (parse_number (c :: r0)) as [n r'| |] eqn:En; try discriminate.
    apply parse_number_length in En. inversion H; subst. simpl in En. lia.
  - intros s acc v r H. simpl in H.
    destruct (parse_value f s) as [w r1| |] eqn:Ev; try discriminate.
    apply IHv in Ev.
    pose proof (skip_ws_length r1) as L1.
    destruct (skip_ws r1) as [|c r']; [discriminate|]. simpl in L1.
    destruct (N.eqb c Ch.comma).
    { apply IHe in H. lia. }
    destruct (N.eqb c Ch.rbracket); [|discriminate].
    inversion H; subst; lia.
  - intros s acc v r H. simpl in H.
    pose proof (skip_ws_length s) as Ls.
    destruct (skip_ws s) as [|q r0]; [discriminate|]. simpl in Ls.
    destruct (N.eqb q Ch.quote); [|discriminate].
    destruct (parse_chars r0 []) as [key r1| |] eqn:Ek; try discriminate.
    apply (parse_chars_length (n := List.length r0)) in Ek; [|lia].
    pose proof (skip_ws_length r1) as L1.
    destruct (skip_ws r1) as [|col r2]; [discriminate|]. simpl in L1.
    destruct (N.eqb col Ch.colon); [|discriminate].
    destruct (parse_value f r2) as [w r3| |] eqn:Ev; try discriminate.
    apply IHv in Ev.
    pose proof (skip_ws_length r3) as L3.
    destruct (skip_ws r3) as [|c r4]; [discriminate|]. simpl in L3.
    destruct (N.eqb c Ch.comma).
    { apply IHm in H. lia. }
    destruct (N.eqb c Ch.rbrace); [|discriminate].
    inversion H; subst; lia.
Qed.

(** A budget above twice the length of the input is never exhausted. *)
Lemma parse_no_fuel (f : nat) :
  (forall s, 2 * List.length s < f -> parse_value f s <> PFuel)
  /\ (forall s acc, 2 * List.length s + 1 < f ->
                    parse_elements f s acc <> PFuel)
  /\ (forall s acc, 2 * List.length s + 1 < f ->
                    parse_members f s acc <> PFuel).
Proof.
  induction f as [|f (IHv & IHe & IHm)].
  { repeat split; intros; lia. }
  repeat split.
  - intros s Hf. simpl.
    pose proof (skip_ws_length s) as Ls.
    destruct (skip_ws s) as [|c r0]; [discriminate|]. simpl in Ls.
    destruct (N.eqb c Ch.lbrace).
    { pose proof (skip_ws_length r0) as Lr.
      destruct (skip_ws r0) as [|c' r']; [discriminate|]. simpl in Lr.
      destruct (N.eqb c' Ch.rbrace); [discriminate|].
      apply IHm. simpl. lia. }
    destruct (N.eqb c Ch.lbracket).
    { pose proof (skip_ws_length r0) as Lr.
      destruct (skip_ws r0) as [|c' r']; [discriminate|]. simpl in Lr.
      destruct (N.eqb c' Ch.rbracket); [discriminate|].
      apply IHe. simpl. lia. }
    destruct (N.eqb c Ch.quote).
    { pose proof (@parse_chars_no_fuel (List.length r0) r0 [] (le_n _)).
      destruct (parse_chars r0 []); try discriminate; contradiction. }
    assert (forall w j, parse_literal w j (c :: r0) <> PFuel) as K.
    { unfold parse_literal. intros w j.
      destruct (strip_prefix w (c :: r0)); discriminate. }
    destruct (N.eqb c 116); [apply K|].
    destruct (N.eqb c 102); [apply K|].
    destruct (N.eqb c 110); [apply K|].
    pose proof (parse_number_no_fuel (c :: r0)).
    destruct (parse_number (c :: r0)); try discriminate; contradiction.
  - intros s acc Hf. simpl.
    pose proof (IHv s ltac:(lia)) as Nv.
    destruct (parse_value f s) as [w r1| |] eqn:Ev;
      try discriminate; [|contradiction].
    apply (proj1 (parse_length f)) in Ev.
    pose proof (skip_ws_length r1) as L1.
    destruct (skip_ws r1) as [|c r']; [discriminate|]. simpl in L1.
    destruct (N.eqb c Ch.comma).
    { apply IHe. lia. }
    destruct (N.eqb c Ch.rbracket); discriminate.
  - intros s acc Hf. simpl.
    pose proof (skip_ws_length s) as Ls.
    destruct (skip_ws s) as [|q r0]; [discriminate|]. simpl in Ls.
    destruct (N.eqb q Ch.quote); [|discriminate].
    pose proof (@parse_chars_no_fuel (List.length r0) r0 [] (le_n _)) as Nk.
    destruct (parse_chars r0 []) as [key r1| |] eqn:Ek;
      try discriminate; [|contradiction].
    apply (parse_chars_length (n := List.length r0)) in Ek; [|lia].
    pose proof (skip_ws_length r1) as L1.
    destruct (skip_ws r1) as [|col r2]; [discriminate|]. simpl in L1.
    destruct (N.eqb col Ch.colon); [|discriminate].
    pose proof (IHv r2 ltac:(lia)) as Nv.
    destruct (parse_value f r2) as [w r3| |] eqn:Ev;
      try discriminate; [|contradiction].
    apply (proj1 (parse_length f)) in Ev.
    pose proof (skip_ws_length r3) as L3.
    destruct (skip_ws r3) as [|c r4]; [discriminate|]. simpl in L3.
    destruct (N.eqb c Ch.comma).
    { apply IHm. lia. }
    destruct (N.eqb c Ch.rbrace); discriminate.
Qed.

(** [JSON_parse] never stops for lack of budget: its verdict is always the
    grammar's. *)
Lemma parse_value_budget (text : jsstring) :
  parse_value (budget text) text <> PFuel.
Proof. apply (proj1 (parse_no_fuel (budget text))). unfold budget. lia. Qed.

(** A verdict reached within some budget is the verdict of every larger
    one. *)
Lemma parse_more_fuel (f : nat) :
  (forall s g, f <= g -> parse_value f s <> PFuel ->
               parse_value g s = parse_value f s)
  /\ (forall s acc g, f <= g -> parse_elements f s acc <> PFuel ->
                      parse_elements g s acc = parse_elements f s acc)
  /\ (forall s acc g, f <= g -> parse_members f s acc <> PFuel ->
                      parse_members g s acc = parse_members f s acc).
Proof.
  induction f as [|f (IHv & IHe & IHm)].
  { repeat split; intros; simpl in *; congruence. }
  repeat split.
  - intros s [|g] Hg H; [lia|]. simpl in *.
    destruct (skip_ws s) as [|c r0]; [reflexivity|].
    destruct (N.eqb c Ch.lbrace).
    { destruct (skip_ws r0) as [|c' r']; [reflexivity|].
      destruct (N.eqb c' Ch.rbrace); [reflexivity|].
      apply IHm; [lia | assumption]. }
    destruct (N.eqb c Ch.lbracket).
    { destruct (skip_ws r0) as [|c' r']; [reflexivity|].
      destruct (N.eqb c' Ch.rbracket); [reflexivity|].
      apply IHe; [lia | assumption]. }
    reflexivity.
  - intros s acc [|g] Hg H; [lia|]. simpl in *.
    destruct (parse_value f s) as [w r1| |] eqn:Ev.
    + rewrite (IHv s g ltac:(lia)) by congruence. rewrite Ev.
      destruct (skip_ws r1) as [|c r']; [reflexivity|].
      destruct (N.eqb c Ch.comma); [|reflexivity].
      apply IHe; [lia | assumption].
    + rewrite (IHv s g ltac:(lia)) by congruence. now rewrite Ev.
    + congruence.
  - intros s acc [|g] Hg H; [lia|]. simpl in *.
    destruct (skip_ws s) as [|q r0]; [reflexivity|].
    destruct (N.eqb q Ch.quote); [|reflexivity].
    destruct (parse_chars r0 []) as [key r1| |]; try reflexivity.
    destruct (skip_ws r1) as [|col r2]; [reflexivity|].
    destruct (N.eqb col Ch.colon); [|reflexivity].
    destruct (parse_value f r2) as [w r3| |] eqn:Ev.
    + rewrite (IHv r2 g ltac:(lia)) by congruence. rewrite Ev.
      destruct (skip_ws r3) as [|c r4]; [reflexivity|].
      destruct (N.eqb c Ch.comma); [|reflexivity].
      apply IHm; [lia | assumption].
    + rewrite (IHv r2 g ltac:(lia)) by congruence. now rewrite Ev.
    + congruence.
Qed.

Corollary parse_value_any_budget (text : jsstring) (g : nat) :
  budget text <= g ->
  parse_value g text = parse_value (budget text) text.
Proof.
  intros Hg. apply (proj1 (parse_more_fuel (budget text))); [exact Hg|].
  apply parse_value_budget.
Qed.

(** Reading a string literal whose units are all plain. *)
Lemma parse_chars_plain (p : jsstring) :
  forall acc r, plain p = true ->
    parse_chars (p ++ Ch.quote :: r) acc = POk (rev acc ++ p) r.
Proof.
  induction p as [|c p IH]; intros acc r Hp.
  - unfold parse_chars. simpl. now rewrite app_nil_r.
  - simpl in Hp. apply andb_true_iff in Hp as [Hc Hp].
    apply andb_true_iff in Hc as [Hq Hl].
    apply andb_true_iff in Hq as [Hq Hb].
    apply negb_true_iff in Hq, Hb. apply N.leb_le in Hl.
    assert (N.ltb c 32 = false) as Hlt by (apply N.ltb_ge; exact Hl).
    change ((c :: p) ++ Ch.quote :: r) with (c :: (p ++ Ch.quote :: r)).
    unfold parse_chars; fold parse_chars.
    rewrite Hq, Hb, Hlt, IH by assumption.
    simpl. now rewrite <- app_assoc.
Qed.

End JSONParseFacts.

Module CityInfoText.
Import JSONParse JSONParseFacts.

Lemma city_info_text_shape (X Y Z : jsstring) :
  city_info_text X Y Z
  = Ch.lbrace :: Ch.quote :: str "city" ++ Ch.quote :: Ch.colon
      :: Ch.quote :: X ++ Ch.quote :: Ch.comma
      :: Ch.quote :: str "industry" ++ Ch.quote :: Ch.colon
      :: Ch.quote :: Y ++ Ch.quote :: Ch.comma
      :: Ch.quote :: str "fun" ++ Ch.quote :: Ch.colon
      :: Ch.quote :: Z ++ [Ch.quote; Ch.rbrace].
Proof.
  unfold city_info_text, quoted.
  repeat (rewrite <- ?app_assoc, <- ?app_comm_cons; simpl).
  reflexivity.
Qed.

(** The descent through the three members needs five levels of budget. *)
Lemma parse_city_info_text (X Y Z : jsstring) (f : nat) :
  plain X = true -> plain Y = true -> plain Z = true ->
  parse_value (5 + f) (city_info_text X Y Z) = POk (city_info X Y Z) [].
Proof.
  intros HX HY HZ. rewrite city_info_text_shape.
  simpl.
  rewrite (parse_chars_plain X) by assumption. simpl.
  rewrite (parse_chars_plain Y) by assumption. simpl.
  rewrite (parse_chars_plain Z) by assumption. simpl.
  reflexivity.
Qed.

Lemma JSON_parse_city_info_text (X Y Z : jsstring) :
  plain X = true -> plain Y = true -> plain Z = true ->
  JSON_parse (city_info_text X Y Z) = inr (city_info X Y Z).
Proof.
  intros HX HY HZ. unfold JSON_parse.
  assert (5 <= budget (city_info_text X Y Z)) as Hb.
  { unfold budget. rewrite city_info_text_shape. simpl. lia. }
  replace (budget (city_info_text X Y Z))
    with (5 + (budget (city_info_text X Y Z) - 5)) by lia.
  now rewrite parse_city_info_text.
Qed.

End CityInfoText.

(* ================================================================= *)
(** ** Strings *)

Lemma strip_prefix_sound (p : jsstring) :
  forall s r, strip_prefix p s = Some r -> s = p ++ r.
Proof.
  induction p as [|a p IH]; intros s r H; simpl in H.
  - destruct s; inversion H; reflexivity.
  - destruct s as [|b s]; [discriminate|].
    destruct (N.eqb a b) eqn:E; [|discriminate].
    apply N.eqb_eq in E. subst b. simpl. f_equal. now apply IH.
Qed.

Lemma includes_sound (p s : jsstring) :
  includes p s = true -> substring_of p s.
Proof.
  induction s as [|c s IH]; simpl.
  - destruct (strip_prefix p []) as [r|] eqn:E; [|discriminate].
    intros _. apply strip_prefix_sound in E. now exists [], r.
  - destruct (strip_prefix p (c :: s)) as [r|] eqn:E.
    + intros _. apply strip_prefix_sound in E. now exists [], r.
    + intros H. destruct (IH H) as (before & after & ->).
      now exists (c :: before), after.
Qed.

(* ================================================================= *)
(** ** The prompt builder *)

(** C2.  For every city, the empty one included, [constructMessages] with
    the schema of the module returns exactly two messages: a [system]
    message whose content contains the serialized schema, and so the
    quoted key ["industry"], then a [user] message whose content is the
    city as given. *)
Theorem constructMessages_two_messages :
  forall city : jsstring,
    exists system_content : jsstring,
      constructMessages city schema
      = [ {| role := str "system"; content := system_content |};
          {| role := str "user"; content := city |} ]
      /\ substring_of (JSON_stringify schema 2) system_content
      /\ substring_of (quoted (str "industry")) system_content.
Proof.
  intros city. eexists. split; [reflexivity|]. split.
  - now exists prompt_head, prompt_tail.
  - apply includes_sound. vm_compute. reflexivity.
Qed.

(** The same for any schema: two messages, the schema serialized between
    the two fixed parts of the prompt. *)
Lemma constructMessages_any_schema (city : jsstring) (sch : json) :
  constructMessages city sch
  = [ {| role := str "system";
         content := prompt_head ++ JSON_stringify sch 2 ++ prompt_tail |};
      {| role := str "user"; content := city |} ].
Proof. reflexivity. Qed.

Lemma constructMessages_empty_city :
  map content (constructMessages [] schema)
  = [prompt_head ++ JSON_stringify schema 2 ++ prompt_tail; []].
Proof. reflexivity. Qed.

(** The system message does not depend on the city. *)
Lemma system_message_fixed (city1 city2 : jsstring) (sch : json) :
  hd_error (constructMessages city1 sch) = hd_error (constructMessages city2 sch).
Proof. reflexivity. Qed.

(* ================================================================= *)
(** ** Validation, parsing and the wrapping of errors *)

Section Properties.

Variables ResponseRest ClientError : Type.
Variable ollama_chat :
  jsstring -> ChatRequest -> ChatOutcome ResponseRest ClientError.

Local Abbreviation value := (jsvalue ResponseRest ClientError).

Implicit Types (response : ChatResponse ResponseRest).
Implicit Types (k : Console ResponseRest ClientError).
Implicit Types (e inner : jsvalue ResponseRest ClientError).
Implicit Types (city text : jsstring).

Lemma safeJsonParse_run text k :
  safeJsonParse text k
  = (match JSON_parse text with
     | inr v => Return v
     | inl pe => Throw (parse_failure pe text)
     end, k).
Proof.
  unfold safeJsonParse, try_catch, JSON_parse_call.
  destruct (JSON_parse text); reflexivity.
Qed.

Lemma JSON_parse_empty : exists pe, JSON_parse [] = inl pe.
Proof. eexists. reflexivity. Qed.

Lemma isValidResponse_true response :
  isValidResponse response = true
  <-> exists c cs, optional_content response = Present (c :: cs).
Proof.
  unfold isValidResponse, truthy.
  destruct (optional_content response) as [| |[|c cs]]; split;
    try discriminate; try (intros (c' & cs' & H); discriminate).
  - intros _. now exists c, cs.
  - reflexivity.
Qed.

(** Under the guard, [response.message.content] is the string that was
    tested. *)
Lemma isValidResponse_content response :
  isValidResponse response = true ->
  exists m, message response = Present m
            /\ reply_content m = Present (message_content response)
            /\ message_content response <> [].
Proof.
  unfold isValidResponse, message_content, optional_content, truthy.
  destruct (message response) as [| |m]; try discriminate.
  destruct (reply_content m) as [| |[|c cs]] eqn:E; try discriminate.
  intros _. exists m. repeat split; [assumption | discriminate].
Qed.

Lemma isValidResponse_false response :
  isValidResponse response = false <-> absent_or_empty response.
Proof.
  unfold isValidResponse, absent_or_empty, optional_content, truthy.
  destruct (message response) as [| |m]; [tauto | tauto |].
  destruct (reply_content m) as [| |[|c cs]]; split; intros H;
    try tauto; try discriminate.
  decompose [or] H; discriminate.
Qed.

Lemma validateAndParse_invalid response k :
  isValidResponse response = false ->
  validateAndParse response k = (Throw (invalid_structure response), k).
Proof. unfold validateAndParse. now intros ->. Qed.

Lemma validateAndParse_valid response k :
  isValidResponse response = true ->
  outcome (validateAndParse response) k
  = outcome (safeJsonParse (message_content response)) k.
Proof.
  unfold validateAndParse, outcome, bind. intros ->.
  rewrite safeJsonParse_run.
  destruct (JSON_parse (message_content response)); reflexivity.
Qed.

Lemma message_content_present response text :
  optional_content response = Present text ->
  message_content response = text.
Proof. unfold message_content. now intros ->. Qed.

Lemma getChatResponse_run city k :
  outcome (getChatResponse ollama_chat city) k
  = match outcome (getChatResponse_try ollama_chat city) k with
    | Return v => Return v
    | Throw inner => Throw (wrapper city inner)
    end.
Proof.
  unfold getChatResponse, try_catch, outcome.
  destruct (getChatResponse_try ollama_chat city k) as [[v|inner] k'];
    reflexivity.
Qed.

Lemma getChatResponse_try_run city k :
  outcome (getChatResponse_try ollama_chat city) k
  = match ollama_chat host (chat_request city) with
    | Rejects reason => Throw (VClientError reason)
    | Resolves response =>
        if isValidResponse response then
          match JSON_parse (message_content response) with
          | inr v => Return v
          | inl pe => Throw (parse_failure pe (message_content response))
          end
        else Throw (invalid_structure response)
    end.
Proof.
  unfold getChatResponse_try, await_chat, outcome, bind.
  destruct (ollama_chat host (chat_request city)) as [response|reason];
    [|reflexivity].
  simpl. unfold validateAndParse, bind.
  destruct (isValidResponse response); [|reflexivity].
  rewrite safeJsonParse_run.
  destruct (JSON_parse (message_content response)); reflexivity.
Qed.

(** On plain data the computation is the function [constructMessages]. *)
Lemma constructMessages_call_plain city (v : json) :
  constructMessages_call city (PlainData v)
  = (ret (constructMessages city v) : M ResponseRest ClientError _).
Proof. reflexivity. Qed.

(** Whatever object is passed, [constructMessages] adds no effect of its
    own: its run is the run of the object's own serialization code,
    followed by the assembly of the two messages. *)
Lemma constructMessages_call_hooked city
  (toJSON : M ResponseRest ClientError json) k :
  constructMessages_call city (Hooked toJSON) k
  = match toJSON k with
    | (Return v, k') => (Return (constructMessages city v), k')
    | (Throw e, k') => (Throw e, k')
    end.
Proof.
  unfold constructMessages_call, JSON_stringify_call, bind.
  destruct (toJSON k) as [[v|e] k']; reflexivity.
Qed.


(** C1.  A reply whose content is the text
    [{"city":"X","industry":"Y","fun":"Z"}] is validated and parsed into
    exactly [{ city: X, industry: Y, fun: Z }], and nothing is thrown.
    [X], [Y] and [Z] are any strings that stand in a JSON string literal
    as they are. *)
Theorem validateAndParse_city_info :
  forall response (X Y Z : jsstring) k,
    plain X = true -> plain Y = true -> plain Z = true ->
    optional_content response = Present (city_info_text X Y Z) ->
    outcome (validateAndParse response) k = Return (city_info X Y Z).
Proof.
  intros response X Y Z k HX HY HZ Hc.
  rewrite validateAndParse_valid.
  - rewrite (message_content_present _ Hc).
    unfold outcome. rewrite safeJsonParse_run. simpl.
    now rewrite CityInfoText.JSON_parse_city_info_text.
  - apply isValidResponse_true. rewrite Hc.
    rewrite CityInfoText.city_info_text_shape. eauto.
Qed.

(** The same from end to end: when the client resolves with such a reply,
    [getChatResponse] resolves with the record. *)
Lemma getChatResponse_city_info city response (X Y Z : jsstring) k :
  plain X = true -> plain Y = true -> plain Z = true ->
  ollama_chat host (chat_request city) = Resolves response ->
  optional_content response = Present (city_info_text X Y Z) ->
  outcome (getChatResponse ollama_chat city) k = Return (city_info X Y Z).
Proof.
  intros HX HY HZ Hr Hc.
  rewrite getChatResponse_run, getChatResponse_try_run, Hr.
  assert (isValidResponse response = true) as ->.
  { apply isValidResponse_true. rewrite Hc.
    rewrite CityInfoText.city_info_text_shape. eauto. }
  rewrite (message_content_present _ Hc).
  now rewrite CityInfoText.JSON_parse_city_info_text.
Qed.

(** C3.  A reply whose message is absent, or whose message content is the
    empty string, fails validation with the error
    [Invalid response structure], whose cause is the reply itself. *)
Theorem validateAndParse_missing_content :
  forall response k,
    message response = Undefined \/ message response = Null
    \/ optional_content response = Present [] ->
    outcome (validateAndParse response) k
    = Throw (invalid_structure response)
    /\ error_message (invalid_structure response : value)
       = Some (str "Invalid response structure")
    /\ error_cause (invalid_structure response : value)
       = Some (VResponse response).
Proof.
  intros response k H. split; [|split; reflexivity].
  unfold outcome. rewrite validateAndParse_invalid; [reflexivity|].
  apply isValidResponse_false. unfold absent_or_empty. tauto.
Qed.

(** C4, as the code has it.  A text that [JSON.parse] rejects makes the
    parse step throw [Failed to parse JSON], with the [SyntaxError] and the
    text itself in its cause.  A text that is valid JSON is returned as
    parsed, also when the value is not an object. *)
Theorem safeJsonParse_outcome :
  forall text k,
    (forall pe, JSON_parse text = inl pe ->
       outcome (safeJsonParse text) k = Throw (parse_failure pe text)
       /\ error_cause (parse_failure pe text : value)
          = Some (VParseDetails (VSyntaxError pe) text))
    /\ (forall v, JSON_parse text = inr v -> is_object v = false ->
          outcome (safeJsonParse text) k = Return v).
Proof.
  intros text k. unfold outcome. rewrite safeJsonParse_run. simpl.
  split.
  - intros pe ->. now split.
  - now intros v -> _.
Qed.

(** C8.  A content that parses as a JSON object is returned as it is,
    whatever its keys and values: nothing is checked after the parse. *)
Theorem validateAndParse_any_object :
  forall response text (members : list (jsstring * json)) k,
    optional_content response = Present text ->
    JSON_parse text = inr (JObject members) ->
    outcome (validateAndParse response) k = Return (JObject members).
Proof.
  intros response text members k Hc Hp.
  assert (isValidResponse response = true) as Hv.
  { apply isValidResponse_true. rewrite Hc.
    destruct text as [|c cs]; [|eauto].
    destruct JSON_parse_empty as [pe E]. congruence. }
  rewrite validateAndParse_valid, (message_content_present _ Hc) by assumption.
  unfold outcome. rewrite safeJsonParse_run. now rewrite Hp.
Qed.

(** C10.  Validation throws [Invalid response structure] exactly when the
    message or its content is absent or the content is the empty string;
    on any non-empty content it passes, and the outcome is that of
    [safeJsonParse] on that content. *)
Theorem validateAndParse_structure_check :
  forall response k,
    ((exists cause,
        outcome (validateAndParse response) k
        = Throw (ChatResponseError (str "Invalid response structure") cause))
     <-> absent_or_empty response)
    /\ (forall c cs, optional_content response = Present (c :: cs) ->
          isValidResponse response = true
          /\ outcome (validateAndParse response) k
             = outcome (safeJsonParse (c :: cs)) k).
Proof.
  intros response k. split.
  - rewrite <- isValidResponse_false. split.
    + intros [cause H].
      destruct (isValidResponse response) eqn:Hv; [|reflexivity].
      rewrite validateAndParse_valid in H by assumption.
      unfold outcome in H. rewrite safeJsonParse_run in H. simpl in H.
      destruct (JSON_parse (message_content response)); [|discriminate].
      unfold parse_failure, ChatResponseError in H.
      discriminate H.
    + intros Hv. eexists. unfold outcome.
      rewrite validateAndParse_invalid by assumption. reflexivity.
  - intros c cs Hc.
    assert (isValidResponse response = true) as Hv
        by (apply isValidResponse_true; eauto).
    split; [assumption|].
    now rewrite validateAndParse_valid, (message_content_present _ Hc) by assumption.
Qed.

(** C6.  When the call to the client rejects, the caller receives the
    error of the request-failure class: its cause is what the client
    rejected with, and the city is read back from its message. *)
Theorem getChatResponse_request_failure :
  forall city (reason : ClientError) k,
    ollama_chat host (chat_request city) = Rejects reason ->
    outcome (getChatResponse ollama_chat city) k
    = Throw (wrapper city (VClientError reason))
    /\ failure_kind ollama_chat city = Some RequestFailure
    /\ error_cause (wrapper city (VClientError reason) : value)
       = Some (VClientError reason)
    /\ queried_city (wrapper city (VClientError reason) : value)
       = Some city.
Proof.
  intros city reason k H.
  rewrite getChatResponse_run, getChatResponse_try_run.
  unfold failure_kind. rewrite H. repeat split.
Qed.

(** C9.  Whatever is thrown inside the [try] of [getChatResponse] -- the
    client's rejection, the structure error or the parse error -- reaches
    the caller wrapped: the error that escapes is a [ChatResponseError]
    whose message is [Failed to get chat response for city: <city>] and
    whose cause is the thrown value itself, so that the kind of the
    failure is found one level down, in the cause. *)
Theorem getChatResponse_wraps_inner_error :
  forall city k inner,
    outcome (getChatResponse_try ollama_chat city) k = Throw inner ->
    (exists e,
       outcome (getChatResponse ollama_chat city) k = Throw e
       /\ error_name e = Some (str "ChatResponseError")
       /\ error_message e
          = Some (str "Failed to get chat response for city: " ++ city)
       /\ error_cause e = Some inner)
    /\ ((exists reason,
           ollama_chat (str "http://127.0.0.1:11434") (chat_request city)
           = Rejects reason
           /\ inner = VClientError reason)
        \/ (exists response,
              ollama_chat (str "http://127.0.0.1:11434") (chat_request city)
              = Resolves response
              /\ isValidResponse response = false
              /\ error_name inner = Some (str "ChatResponseError")
              /\ error_message inner = Some (str "Invalid response structure")
              /\ error_cause inner = Some (VResponse response))
        \/ (exists response pe,
              ollama_chat (str "http://127.0.0.1:11434") (chat_request city)
              = Resolves response
              /\ isValidResponse response = true
              /\ JSON_parse (message_content response) = inl pe
              /\ error_name inner = Some (str "ChatResponseError")
              /\ error_message inner = Some (str "Failed to parse JSON")
              /\ error_cause inner
                 = Some (VParseDetails (VSyntaxError pe)
                           (message_content response)))).
Proof.
  intros city k inner H. split.
  - exists (wrapper city inner). rewrite getChatResponse_run, H.
    repeat split.
  - rewrite getChatResponse_try_run in H.
    change (str "http://127.0.0.1:11434") with host.
    destruct (ollama_chat host (chat_request city)) as [response|reason].
    + destruct (isValidResponse response) eqn:Hv.
      * destruct (JSON_parse (message_content response)) as [pe|v] eqn:Hp;
          [|discriminate].
        right; right. exists response, pe. inversion H.
        repeat split; assumption.
      * right; left. exists response. inversion H.
        repeat split; assumption.
    + left. exists reason. inversion H. auto.
Qed.

(** C5, as the code has it.  Every error the caller receives is a
    [ChatResponseError] with the same name and the message
    [Failed to get chat response for city: <city>]; which of the three
    failures occurred is read from its cause. *)
Theorem getChatResponse_failure_shape :
  forall city k e,
    outcome (getChatResponse ollama_chat city) k = Throw e ->
    error_name e = Some (str "ChatResponseError")
    /\ error_message e = Some (failure_prefix ++ city)
    /\ exists inner,
         error_cause e = Some inner
         /\ failure_kind ollama_chat city = Some (kind_of_cause inner).
Proof.
  intros city k e H.
  rewrite getChatResponse_run, getChatResponse_try_run in H.
  unfold failure_kind.
  destruct (ollama_chat host (chat_request city)) as [response|reason].
  - destruct (isValidResponse response).
    + destruct (JSON_parse (message_content response)) as [pe|v];
        [|discriminate].
      inversion H. repeat split. eexists. split; reflexivity.
    + inversion H. repeat split. eexists. split; reflexivity.
  - inversion H. repeat split. eexists. split; reflexivity.
Qed.

End Properties.

(* ================================================================= *)
(** ** The statements at concrete replies *)

Module Scenarios.
Import Demo.

Lemma city_info_text_XYZ :
  city_info_text (str "X") (str "Y") (str "Z")
  = json_literal "{'city':'X','industry':'Y','fun':'Z'}".
Proof. reflexivity. Qed.

Lemma validateAndParse_city_info_witness :
  outcome
    (validateAndParse
       (reply (Present (json_literal "{'city':'X','industry':'Y','fun':'Z'}"))))
    start
  = Return (city_info (str "X") (str "Y") (str "Z")).
Proof. apply validateAndParse_city_info; reflexivity. Defined.

(** The end-to-end scenario of the specification. *)
Lemma getChatResponse_london :
  outcome (getChatResponse (answering london_text) london) start
  = Return (city_info london (str "Finance") (str "Visit the British Museum")).
Proof.
  apply getChatResponse_city_info with (response := reply (Present london_text));
    reflexivity.
Qed.

Lemma validateAndParse_missing_content_witness :
  outcome (validateAndParse no_message) start
  = Throw (invalid_structure no_message)
  /\ error_message (invalid_structure no_message : jsvalue jsstring jsstring)
     = Some (str "Invalid response structure")
  /\ error_cause (invalid_structure no_message : jsvalue jsstring jsstring)
     = Some (VResponse no_message).
Proof.
  apply validateAndParse_missing_content. left. reflexivity.
Defined.

Lemma validateAndParse_empty_content :
  outcome (validateAndParse (reply (Present []))) start
  = Throw (invalid_structure (reply (Present []))).
Proof. reflexivity. Qed.

(** The unquoted key of the specification's example is rejected at the
    second code unit. *)
Lemma JSON_parse_unquoted_key :
  JSON_parse (str "{city: London}") = inl {| position := 1 |}.
Proof. reflexivity. Qed.

Lemma safeJsonParse_outcome_witness :
  outcome (safeJsonParse (str "{city: London}")) start
  = Throw (parse_failure {| position := 1 |} (str "{city: London}"))
  /\ error_cause (parse_failure {| position := 1 |} (str "{city: London}")
                  : jsvalue jsstring jsstring)
     = Some (VParseDetails (VSyntaxError {| position := 1 |})
               (str "{city: London}")).
Proof.
  apply (proj1 (safeJsonParse_outcome (str "{city: London}") start)).
  reflexivity.
Defined.

(** C4 as stated fails: the text [42] is valid JSON and not an object, and
    the parse step returns the number instead of throwing. *)
Lemma safeJsonParse_non_object_counterexample :
  JSON_parse (str "42") = inr (JNumber (str "42"))
  /\ is_object (JNumber (str "42")) = false
  /\ outcome (safeJsonParse (str "42")) start = Return (JNumber (str "42"))
  /\ ~ (exists e, outcome (safeJsonParse (str "42")) start = Throw e).
Proof.
  repeat split. intros [e H]. discriminate H.
Qed.

Lemma safeJsonParse_other_non_objects :
  outcome (safeJsonParse (str "null")) start = Return JNull
  /\ outcome (safeJsonParse (str "[]")) start = Return (JArray [])
  /\ outcome (safeJsonParse (json_literal "'London'")) start
     = Return (JString london)
  /\ outcome (safeJsonParse (str "true")) start = Return (JBool true).
Proof. repeat split. Qed.

Lemma validateAndParse_any_object_witness :
  outcome (validateAndParse (reply (Present (json_literal "{'city':null}"))))
    start
  = Return (JObject [(str "city", JNull)]).
Proof.
  apply validateAndParse_any_object
    with (text := json_literal "{'city':null}"); reflexivity.
Defined.

Lemma validateAndParse_empty_object :
  outcome (validateAndParse (reply (Present (str "{}")))) start
  = Return (JObject [])
  /\ get_member (str "city") [] = None
  /\ get_member (str "industry") [] = None
  /\ get_member (str "fun") [] = None.
Proof. repeat split. Qed.

Lemma validateAndParse_structure_check_witness :
  isValidResponse (reply (Present (str " "))) = true
  /\ outcome (validateAndParse (reply (Present (str " ")))) start
     = outcome (safeJsonParse (str " ")) start.
Proof.
  apply (proj2 (validateAndParse_structure_check
                  (reply (Present (str " "))) start)).
  reflexivity.
Defined.

Lemma validateAndParse_blank_content :
  outcome (validateAndParse (reply (Present (str " ")))) start
  = Throw (parse_failure {| position := 1 |} (str " ")).
Proof. reflexivity. Qed.

Lemma getChatResponse_request_failure_witness :
  outcome (getChatResponse unreachable london) start
  = Throw (wrapper london (VClientError (str "fetch failed")))
  /\ failure_kind unreachable london = Some RequestFailure
  /\ error_cause (wrapper london (VClientError (str "fetch failed"))
                  : jsvalue jsstring jsstring)
     = Some (VClientError (str "fetch failed"))
  /\ queried_city (wrapper london (VClientError (str "fetch failed"))
                   : jsvalue jsstring jsstring)
     = Some london.
Proof.
  apply getChatResponse_request_failure. reflexivity.
Defined.

Lemma getChatResponse_wraps_inner_error_witness :
  exists e,
    outcome (getChatResponse (answering (str "{city: London}")) london) start
    = Throw e
    /\ error_name e = Some (str "ChatResponseError")
    /\ error_message e
       = Some (str "Failed to get chat response for city: London")
    /\ error_cause e
       = Some (parse_failure {| position := 1 |} (str "{city: London}")).
Proof.
  apply (getChatResponse_wraps_inner_error
           (answering (str "{city: London}")) london start).
  reflexivity.
Defined.

Lemma getChatResponse_failure_shape_witness :
  error_name (wrapper london (invalid_structure no_message)
              : jsvalue jsstring jsstring)
  = Some (str "ChatResponseError")
  /\ error_message (wrapper london (invalid_structure no_message)
                    : jsvalue jsstring jsstring)
     = Some (failure_prefix ++ london)
  /\ exists inner,
       error_cause (wrapper london (invalid_structure no_message)
                    : jsvalue jsstring jsstring) = Some inner
       /\ failure_kind silent london = Some (kind_of_cause inner).
Proof.
  apply (getChatResponse_failure_shape silent london start).
  reflexivity.
Defined.

(** C5 as stated fails: a reply without message and a rejected request are
    failures of two classes, and the errors the caller receives for them
    have the same [name] and the same [message]; no reading of those two
    fields tells the classes apart. *)
Lemma error_name_counterexample :
  ~ (exists classify : option jsstring -> option jsstring -> FailureKind,
       forall (chat : jsstring -> ChatRequest -> Outcome) (city : jsstring)
              (k : Console jsstring jsstring) (e : jsvalue jsstring jsstring),
         outcome (getChatResponse chat city) k = Throw e ->
         failure_kind chat city
         = Some (classify (error_name e) (error_message e))).
Proof.
  intros [classify H].
  pose proof (H silent london start _ eq_refl) as H1.
  pose proof (H unreachable london start _ eq_refl) as H2.
  vm_compute in H1, H2. congruence.
Qed.

End Scenarios.

(* ================================================================= *)
(** ** What the console shows and what the caller can read back *)

Section CallerView.

Variables ResponseRest ClientError : Type.
Variable ollama_chat :
  jsstring -> ChatRequest -> ChatOutcome ResponseRest ClientError.

Local Abbreviation value := (jsvalue ResponseRest ClientError).

Implicit Types (response : ChatResponse ResponseRest).
Implicit Types (k : Console ResponseRest ClientError).
Implicit Types (e inner : value).
Implicit Types (city text : jsstring).

(** The whole run of [getChatResponse], console included. *)
Lemma getChatResponse_full_run city k :
  getChatResponse ollama_chat city k
  = match ollama_chat host (chat_request city) with
    | Rejects reason =>
        (Throw (wrapper city (VClientError reason)),
         k ++ [error_line (str "Error fetching chat response:")
                 (VClientError reason)])
    | Resolves response =>
        let k1 := k ++ [log_line (str "Raw ChatResponse:") (VResponse response)] in
        if isValidResponse response then
          match JSON_parse (message_content response) with
          | inr v =>
              (Return v,
               k1 ++ [log_line (str "Parsed Chat Response:") (VJson v)])
          | inl pe =>
              let inner := parse_failure pe (message_content response) in
              (Throw (wrapper city inner),
               k1 ++ [error_line (str "Error fetching chat response:") inner])
          end
        else
          (Throw (wrapper city (invalid_structure response)),
           k1 ++ [error_line (str "Error fetching chat response:")
                    (invalid_structure response)])
    end.
Proof.
  unfold getChatResponse, getChatResponse_try, getChatResponse_catch,
    try_catch, await_chat, bind.
  destruct (ollama_chat host (chat_request city)) as [response|reason];
    [|reflexivity].
  simpl. unfold validateAndParse, bind.
  destruct (isValidResponse response); [|reflexivity].
  rewrite safeJsonParse_run.
  destruct (JSON_parse (message_content response)); reflexivity.
Qed.

(** X1.  [getChatResponse] resolves with [v] exactly when the client
    resolves with a reply that has non-empty content and [JSON.parse]
    reads that content as [v]: there is no other source of a result. *)
Theorem getChatResponse_resolves_iff :
  forall city k (v : json),
    outcome (getChatResponse ollama_chat city) k = Return v
    <-> exists response,
          ollama_chat host (chat_request city) = Resolves response
          /\ isValidResponse response = true
          /\ JSON_parse (message_content response) = inr v.
Proof.
  intros city k v. unfold outcome. rewrite getChatResponse_full_run.
  destruct (ollama_chat host (chat_request city)) as [response|reason];
    simpl.
  - destruct (isValidResponse response) eqn:Hv; simpl.
    + destruct (JSON_parse (message_content response)) as [pe|w] eqn:Hp;
        simpl; split.
      * discriminate.
      * intros (r & Hr & _ & Hw). inversion Hr; subst r.
        rewrite Hp in Hw. discriminate.
      * intros H. inversion H; subst w. eauto.
      * intros (r & Hr & _ & Hw). inversion Hr; subst r.
        rewrite Hp in Hw. congruence.
    + split; [discriminate|].
      intros (r & Hr & Hv' & _). inversion Hr; subst r. congruence.
  - split; [discriminate|]. intros (r & Hr & _). discriminate.
Qed.

(** X2.  A successful call adds exactly two lines to the console: the raw
    reply, then the parsed value it returns.  Nothing goes to the error
    stream and what was on the console before is kept. *)
Theorem getChatResponse_console_on_success :
  forall city k (v : json),
    outcome (getChatResponse ollama_chat city) k = Return v ->
    exists response,
      ollama_chat host (chat_request city) = Resolves response
      /\ written (getChatResponse ollama_chat city) k
         = k ++ [ log_line (str "Raw ChatResponse:") (VResponse response);
                  log_line (str "Parsed Chat Response:") (VJson v) ].
Proof.
  intros city k v. unfold outcome, written.
  rewrite getChatResponse_full_run.
  destruct (ollama_chat host (chat_request city)) as [response|reason];
    simpl; [|discriminate].
  destruct (isValidResponse response); simpl; [|discriminate].
  destruct (JSON_parse (message_content response)) as [pe|w]; simpl;
    [discriminate|].
  intros H. inversion H; subst w. exists response.
  now rewrite <- app_assoc.
Qed.

(** X3.  A failed call ends the console with one line on the error
    stream, and that line shows the cause of the error the caller
    receives, not the error itself.  Before it comes the raw reply when
    there was one; the parsed-value line is never written. *)
Theorem getChatResponse_console_on_failure :
  forall city k e,
    outcome (getChatResponse ollama_chat city) k = Throw e ->
    exists inner,
      error_cause e = Some inner
      /\ ((exists reason,
             ollama_chat host (chat_request city) = Rejects reason
             /\ written (getChatResponse ollama_chat city) k
                = k ++ [ error_line (str "Error fetching chat response:")
                           inner ])
          \/ (exists response,
                ollama_chat host (chat_request city) = Resolves response
                /\ written (getChatResponse ollama_chat city) k
                   = k ++ [ log_line (str "Raw ChatResponse:")
                              (VResponse response);
                            error_line (str "Error fetching chat response:")
                              inner ])).
Proof.
  intros city k e. unfold outcome, written.
  rewrite getChatResponse_full_run.
  destruct (ollama_chat host (chat_request city)) as [response|reason];
    simpl.
  - destruct (isValidResponse response); simpl.
    + destruct (JSON_parse (message_content response)) as [pe|w]; simpl;
        [|discriminate].
      intros H. inversion H. eexists. split; [reflexivity|].
      right. exists response. now rewrite <- app_assoc.
    + intros H. inversion H. eexists. split; [reflexivity|].
      right. exists response. now rewrite <- app_assoc.
  - intros H. inversion H. eexists. split; [reflexivity|].
    left. now exists reason.
Qed.

(** X4.  Whatever the failure, the city that was asked for is read back
    from the message of the error the caller receives. *)
Theorem queried_city_of_failure :
  forall city k e,
    outcome (getChatResponse ollama_chat city) k = Throw e ->
    queried_city e = Some city.
Proof.
  intros city k e H.
  assert (exists inner, e = wrapper city inner) as [inner ->].
  { rewrite getChatResponse_run in H.
    destruct (outcome (getChatResponse_try ollama_chat city) k);
      inversion H; eauto. }
  unfold queried_city, wrapper, ChatResponseError, error_message.
  apply JSONParseFacts.strip_prefix_app.
Qed.

(** X5.  When the client did answer and the call still fails, what the
    model sent is found two causes down in the error the caller receives:
    the reply itself when it had no usable content, the raw content text
    when it was not JSON. *)
Theorem failure_keeps_what_was_sent :
  forall city k e response,
    ollama_chat host (chat_request city) = Resolves response ->
    outcome (getChatResponse ollama_chat city) k = Throw e ->
    (isValidResponse response = false
     /\ inner_cause e = Some (VResponse response))
    \/ (isValidResponse response = true
        /\ rawResponse_of e = Some (message_content response)).
Proof.
  intros city k e response Hr. unfold outcome.
  rewrite getChatResponse_full_run, Hr. simpl.
  destruct (isValidResponse response); simpl.
  - destruct (JSON_parse (message_content response)); simpl;
      [|discriminate].
    intros H. inversion H. now right.
  - intros H. inversion H. now left.
Qed.


End CallerView.

(* ================================================================= *)
(** ** [JSON.parse] on padded and on unusable texts *)

Module JSONTextFacts.
Import JSONParse JSONParseFacts.

#[local] Arguments N.eqb : simpl never.
#[local] Arguments N.leb : simpl never.
#[local] Arguments N.ltb : simpl never.
#[local] Arguments str : simpl never.
#[local] Arguments parse_number : simpl never.
#[local] Arguments parse_literal : simpl never.
#[local] Arguments parse_chars : simpl never.

Lemma budget_S (s : jsstring) : budget s = S (2 * List.length s).
Proof. unfold budget. lia. Qed.

Lemma skip_ws_blank (s : jsstring) : blank s = true -> skip_ws s = [].
Proof.
  induction s as [|c s IH]; simpl; [reflexivity|].
  destruct (is_ws c); simpl; [assumption | discriminate].
Qed.

Lemma skip_ws_app_blank (a s : jsstring) :
  blank a = true -> skip_ws (a ++ s) = skip_ws s.
Proof.
  induction a as [|c a IH]; simpl; [reflexivity|].
  destruct (is_ws c); simpl; [assumption | discriminate].
Qed.

Lemma skip_ws_found (s x : jsstring) (c : N) (r : jsstring) :
  skip_ws s = c :: r -> skip_ws (s ++ x) = c :: r ++ x.
Proof.
  induction s as [|d s IH]; simpl; [discriminate|].
  destruct (is_ws d); [assumption|].
  intros H. inversion H; subst. reflexivity.
Qed.

Lemma skip_ws_head (s : jsstring) (c : N) (r : jsstring) :
  skip_ws s = c :: r -> is_ws c = false.
Proof.
  induction s as [|d s IH]; simpl; [discriminate|].
  destruct (is_ws d) eqn:E; [assumption|].
  intros H. inversion H; subst. exact E.
Qed.

Lemma skip_ws_stays (c : N) (r : jsstring) :
  is_ws c = false -> skip_ws (c :: r) = c :: r.
Proof. simpl. now intros ->. Qed.

Lemma blank_app (a b : jsstring) :
  blank (a ++ b) = blank a && blank b.
Proof. apply forallb_app. Qed.

Lemma is_ws_number_stop (c : N) : is_ws c = true -> number_stop c = true.
Proof.
  unfold is_ws, number_stop, is_digit, Ch.tab, Ch.lf, Ch.cr, Ch.space.
  intros H. repeat (apply orb_true_iff in H as [H|H]);
    apply N.eqb_eq in H; subst c; reflexivity.
Qed.

Lemma blank_stops (b : jsstring) : blank b = true -> stops b = true.
Proof.
  destruct b as [|c b]; simpl; [reflexivity|].
  intros H. apply andb_true_iff in H as [H _]. now apply is_ws_number_stop.
Qed.

(** A blank text is no JSON text: the parse stops at its end. *)
Lemma JSON_parse_blank (s : jsstring) :
  blank s = true -> JSON_parse s = inl {| position := List.length s |}.
Proof.
  intros H. unfold JSON_parse. rewrite budget_S. simpl.
  rewrite skip_ws_blank by assumption. simpl. now rewrite Nat.sub_0_r.
Qed.

(** A text whose first unit after the white space cannot begin a value is
    rejected at that unit. *)
Lemma JSON_parse_bad_start (a : jsstring) (c : N) (r : jsstring) :
  blank a = true -> is_ws c = false -> starts_value c = false ->
  JSON_parse (a ++ c :: r) = inl {| position := List.length a |}.
Proof.
  intros Ha Hw Hs. unfold JSON_parse. rewrite budget_S. simpl.
  rewrite skip_ws_app_blank, skip_ws_stays by assumption.
  unfold starts_value in Hs.
  apply orb_false_iff in Hs as [Hs Hn].
  apply orb_false_iff in Hs as [Hs Hf].
  apply orb_false_iff in Hs as [Hs Ht].
  apply orb_false_iff in Hs as [Hs Hd].
  apply orb_false_iff in Hs as [Hs Hm].
  apply orb_false_iff in Hs as [Hs Hq].
  apply orb_false_iff in Hs as [Hb Hk].
  rewrite Hb, Hk, Hq, Ht, Hf, Hn.
  unfold parse_number. rewrite Hm. unfold parse_int.
  assert (N.eqb c Ch.zero = false) as ->.
  { apply N.eqb_neq. intros ->. discriminate. }
  rewrite Hd. f_equal. f_equal.
  rewrite length_app. simpl. lia.
Qed.

(** *** Appending a continuation to a text that parses *)

Lemma number_stop_not_digit (c : N) :
  number_stop c = true -> is_digit c = false.
Proof.
  unfold number_stop. intros H.
  repeat (apply andb_true_iff in H as [H _]). now apply negb_true_iff in H.
Qed.

Lemma stops_frac (x : jsstring) :
  stops x = true -> parse_frac x = POk [] x.
Proof.
  destruct x as [|c x]; [reflexivity|]. simpl. unfold number_stop.
  intros H. apply andb_true_iff in H as [H _].
  apply andb_true_iff in H as [H _]. apply andb_true_iff in H as [_ H].
  apply negb_true_iff in H. now rewrite H.
Qed.

Lemma stops_exp (x : jsstring) :
  stops x = true -> parse_exp x = POk [] x.
Proof.
  destruct x as [|c x]; [reflexivity|]. simpl. unfold number_stop.
  intros H. apply andb_true_iff in H as [H H69].
  apply andb_true_iff in H as [_ H101].
  apply negb_true_iff in H69, H101. now rewrite H69, H101.
Qed.

Lemma span_digits_app (s x : jsstring) :
  stops x = true ->
  span_digits (s ++ x)
  = (fst (span_digits s), snd (span_digits s) ++ x).
Proof.
  intros Hx. induction s as [|d s IH]; simpl.
  - destruct x as [|c x]; [reflexivity|]. simpl in *.
    now rewrite (@number_stop_not_digit _ Hx).
  - destruct (is_digit d); [|reflexivity].
    rewrite IH. now destruct (span_digits s).
Qed.

Lemma parse_int_app (s x i r : jsstring) :
  stops x = true -> parse_int s = POk i r ->
  parse_int (s ++ x) = POk i (r ++ x).
Proof.
  intros Hx. unfold parse_int. destruct s as [|c s]; [discriminate|].
  simpl. destruct (N.eqb c Ch.zero).
  { intros H. now inversion H. }
  destruct (is_digit c); [|discriminate].
  rewrite span_digits_app by assumption.
  destruct (span_digits s). simpl. intros H. now inversion H.
Qed.

Lemma parse_frac_app (s x f r : jsstring) :
  stops x = true -> parse_frac s = POk f r ->
  parse_frac (s ++ x) = POk f (r ++ x).
Proof.
  intros Hx. destruct s as [|c s].
  { simpl. intros H. inversion H; subst. now apply stops_frac. }
  unfold parse_frac. simpl. destruct (N.eqb c Ch.dot).
  - rewrite span_digits_app by assumption.
    destruct (span_digits s) as [[|d ds] rest]; simpl; [discriminate|].
    intros H. now inversion H.
  - intros H. now inversion H.
Qed.

Lemma parse_exp_app (s x e r : jsstring) :
  stops x = true -> parse_exp s = POk e r ->
  parse_exp (s ++ x) = POk e (r ++ x).
Proof.
  intros Hx. destruct s as [|c s].
  { simpl. intros H. inversion H; subst. now apply stops_exp. }
  unfold parse_exp. simpl. destruct (N.eqb c 101 || N.eqb c 69).
  - destruct s as [|g s']; [discriminate|]. simpl.
    destruct (N.eqb g Ch.plus || N.eqb g Ch.minus).
    + rewrite span_digits_app by assumption.
      destruct (span_digits s') as [[|d ds] rest]; simpl; [discriminate|].
      intros H. now inversion H.
    + change (g :: s' ++ x) with ((g :: s') ++ x).
      rewrite span_digits_app by assumption.
      destruct (span_digits (g :: s')) as [[|d ds] rest]; simpl;
        [discriminate|].
      intros H. now inversion H.
  - intros H. now inversion H.
Qed.

Lemma parse_number_app (s x n r : jsstring) :
  stops x = true -> parse_number s = POk n r ->
  parse_number (s ++ x) = POk n (r ++ x).
Proof.
  intros Hx. unfold parse_number.
  assert (forall sign r0 : jsstring,
            match parse_int r0 with
            | POk i r1 =>
                match parse_frac r1 with
                | POk f r2 =>
                    match parse_exp r2 with
                    | POk e r3 => POk (sign ++ i ++ f ++ e) r3
                    | PSyntax y => PSyntax y
                    | PFuel => PFuel
                    end
                | PSyntax y => PSyntax y
                | PFuel => PFuel
                end
            | PSyntax y => PSyntax y
            | PFuel => PFuel
            end = POk n r ->
            match parse_int (r0 ++ x) with
            | POk i r1 =>
                match parse_frac r1 with
                | POk f r2 =>
                    match parse_exp r2 with
                    | POk e r3 => POk (sign ++ i ++ f ++ e) r3
                    | PSyntax y => PSyntax y
                    | PFuel => PFuel
                    end
                | PSyntax y => PSyntax y
                | PFuel => PFuel
                end
            | PSyntax y => PSyntax y
            | PFuel => PFuel
            end = POk n (r ++ x)) as K.
  { intros sign r0.
    destruct (parse_int r0) as [i r1| |] eqn:Ei; try discriminate.
    destruct (parse_frac r1) as [f r2| |] eqn:Ef; try discriminate.
    destruct (parse_exp r2) as [e r3| |] eqn:Ee; try discriminate.
    rewrite (@parse_int_app _ _ _ _ Hx Ei), (@parse_frac_app _ _ _ _ Hx Ef),
      (@parse_exp_app _ _ _ _ Hx Ee).
    intros H. now inversion H. }
  destruct s as [|c s].
  { intros H. discriminate H. }
  simpl. destruct (N.eqb c Ch.minus); apply K.
Qed.

Lemma strip_prefix_more (w s x r : jsstring) :
  strip_prefix w s = Some r -> strip_prefix w (s ++ x) = Some (r ++ x).
Proof.
  revert s. induction w as [|a w IH]; intros s; simpl.
  - destruct s; intros H; now inversion H.
  - destruct s as [|b s]; [discriminate|]. simpl.
    destruct (N.eqb a b); [apply IH | discriminate].
Qed.

Lemma parse_chars_cons (c : N) (r acc : jsstring) :
  parse_chars (c :: r) acc
  = if N.eqb c Ch.quote then POk (rev acc) r
    else if N.eqb c Ch.backslash then
      match r with
      | [] => PSyntax []
      | e :: r1 =>
          if N.eqb e 117 then
            match r1 with
            | h1 :: h2 :: h3 :: h4 :: r2 =>
                match hex4 h1 h2 h3 h4 with
                | Some u => parse_chars r2 (u :: acc)
                | None => PSyntax r1
                end
            | _ => PSyntax r1
            end
          else
            match simple_escape e with
            | Some u => parse_chars r1 (u :: acc)
            | None => PSyntax r
            end
      end
    else if N.ltb c 32 then PSyntax (c :: r)
    else parse_chars r (c :: acc).
Proof. reflexivity. Qed.

Lemma parse_chars_app (x : jsstring) :
  forall n s acc key r,
    List.length s <= n -> parse_chars s acc = POk key r ->
    parse_chars (s ++ x) acc = POk key (r ++ x).
Proof.
  induction n as [|n IH]; intros s acc key r Hn H.
  - destruct s; [discriminate | simpl in Hn; lia].
  - destruct s as [|c s]; [discriminate|]. simpl in Hn.
    simpl app. rewrite parse_chars_cons in H |- *. simpl.
    destruct (N.eqb c Ch.quote).
    { now inversion H. }
    destruct (N.eqb c Ch.backslash).
    { destruct s as [|e r1]; [discriminate|]. simpl.
      destruct (N.eqb e 117).
      - destruct r1 as [|h1 [|h2 [|h3 [|h4 r2]]]]; try discriminate.
        simpl.
        destruct (hex4 h1 h2 h3 h4); [|discriminate].
        apply IH; [simpl in *; lia | assumption].
      - destruct (simple_escape e); [|discriminate].
        apply IH; [simpl in *; lia | assumption]. }
    destruct (N.ltb c 32); [discriminate|].
    apply IH; [lia | assumption].
Qed.

(** A parse that succeeds is not disturbed by what is appended, as long
    as the continuation cannot extend a number. *)
Lemma parse_app (x : jsstring) (f : nat) :
  stops x = true ->
  (forall s v r, parse_value f s = POk v r ->
                 parse_value f (s ++ x) = POk v (r ++ x))
  /\ (forall s acc v r, parse_elements f s acc = POk v r ->
                        parse_elements f (s ++ x) acc = POk v (r ++ x))
  /\ (forall s acc v r, parse_members f s acc = POk v r ->
                        parse_members f (s ++ x) acc = POk v (r ++ x)).
Proof.
  intros Hx. induction f as [|f (IHv & IHe & IHm)].
  { repeat split; intros; discriminate. }
  repeat split.
  - intros s v r H. simpl in H |- *.
    destruct (skip_ws s) as [|c r0] eqn:Es; [discriminate|].
    rewrite (@skip_ws_found _ x _ _ Es).
    destruct (N.eqb c Ch.lbrace).
    { destruct (skip_ws r0) as [|c' r'] eqn:Er; [discriminate|].
      rewrite (@skip_ws_found _ x _ _ Er).
      destruct (N.eqb c' Ch.rbrace); [now inversion H|].
      now apply (IHm (c' :: r')). }
    destruct (N.eqb c Ch.lbracket).
    { destruct (skip_ws r0) as [|c' r'] eqn:Er; [discriminate|].
      rewrite (@skip_ws_found _ x _ _ Er).
      destruct (N.eqb c' Ch.rbracket); [now inversion H|].
      now apply (IHe (c' :: r')). }
    destruct (N.eqb c Ch.quote).
    { destruct (parse_chars r0 []) as [key r'| |] eqn:Ek; try discriminate.
      rewrite (@parse_chars_app x (List.length r0) _ _ _ _ (le_n _) Ek).
      now inversion H. }
    assert (forall w j, parse_literal w j (c :: r0) = POk v r ->
                        parse_literal w j (c :: r0 ++ x) = POk v (r ++ x))
      as K.
    { unfold parse_literal. intros w j E.
      destruct (strip_prefix w (c :: r0)) as [t|] eqn:Et; [|discriminate].
      change (c :: r0 ++ x) with ((c :: r0) ++ x).
      rewrite (@strip_prefix_more _ _ x _ Et). now inversion E. }
    destruct (N.eqb c 116); [now apply K|].
    destruct (N.eqb c 102); [now apply K|].
    destruct (N.eqb c 110); [now apply K|].
    destruct (parse_number (c :: r0)) as [n r'| |] eqn:En; try discriminate.
    change (c :: r0 ++ x) with ((c :: r0) ++ x).
    rewrite (@parse_number_app _ _ _ _ Hx En). now inversion H.
  - intros s acc v r H. simpl in H |- *.
    destruct (parse_value f s) as [w r1| |] eqn:Ev; try discriminate.
    rewrite (IHv _ _ _ Ev).
    destruct (skip_ws r1) as [|c r'] eqn:E1; [discriminate|].
    rewrite (@skip_ws_found _ x _ _ E1).
    destruct (N.eqb c Ch.comma); [now apply IHe|].
    destruct (N.eqb c Ch.rbracket); [|discriminate].
    now inversion H.
  - intros s acc v r H. simpl in H |- *.
    destruct (skip_ws s) as [|q r0] eqn:Es; [discriminate|].
    rewrite (@skip_ws_found _ x _ _ Es).
    destruct (N.eqb q Ch.quote); [|discriminate].
    destruct (parse_chars r0 []) as [key r1| |] eqn:Ek; try discriminate.
    rewrite (@parse_chars_app x (List.length r0) _ _ _ _ (le_n _) Ek).
    destruct (skip_ws r1) as [|col r2] eqn:E1; [discriminate|].
    rewrite (@skip_ws_found _ x _ _ E1).
    destruct (N.eqb col Ch.colon); [|discriminate].
    destruct (parse_value f r2) as [w r3| |] eqn:Ev; try discriminate.
    rewrite (IHv _ _ _ Ev).
    destruct (skip_ws r3) as [|c r4] eqn:E3; [discriminate|].
    rewrite (@skip_ws_found _ x _ _ E3).
    destruct (N.eqb c Ch.comma); [now apply IHm|].
    destruct (N.eqb c Ch.rbrace); [|discriminate].
    now inversion H.
Qed.

(** A success within any budget is the verdict of [JSON_parse]'s own. *)
Lemma parse_value_at_budget (f : nat) (s : jsstring) (v : json)
  (r : jsstring) :
  parse_value f s = POk v r -> parse_value (budget s) s = POk v r.
Proof.
  intros H. destruct (Nat.le_ge_cases f (budget s)) as [L|L].
  - rewrite (proj1 (@parse_more_fuel f) s (budget s) L); [exact H|].
    rewrite H. discriminate.
  - rewrite <- (proj1 (@parse_more_fuel (budget s)) s f L); [exact H|].
    apply parse_value_budget.
Qed.

Lemma JSON_parse_inr (text : jsstring) (v : json) :
  JSON_parse text = inr v
  <-> exists r, parse_value (budget text) text = POk v r /\ blank r = true.
Proof.
  unfold JSON_parse. split.
  - destruct (parse_value (budget text) text) as [w r| |]; try discriminate.
    destruct (skip_ws r) as [|c r'] eqn:E; [|discriminate].
    intros H. inversion H; subst w. exists r. split; [reflexivity|].
    clear H. induction r as [|d r IH]; [reflexivity|]. simpl in *.
    destruct (is_ws d); [now apply IH | discriminate].
  - intros (r & -> & Hr). now rewrite (@skip_ws_blank _ Hr).
Qed.

(** White space around a JSON text does not change what is read. *)
Lemma JSON_parse_padded (a text b : jsstring) (v : json) :
  blank a = true -> blank b = true ->
  JSON_parse text = inr v -> JSON_parse (a ++ text ++ b) = inr v.
Proof.
  intros Ha Hb H. apply JSON_parse_inr in H as (r & H & Hr).
  apply JSON_parse_inr. exists (r ++ b). split.
  - apply parse_value_at_budget with (f := budget text).
    apply (proj1 (@parse_app b (budget text) (@blank_stops _ Hb))) in H.
    rewrite budget_S in *. simpl in H |- *.
    now rewrite skip_ws_app_blank.
  - now rewrite blank_app, Hr, Hb.
Qed.

End JSONTextFacts.

(* ================================================================= *)
(** ** Replies that are not bare JSON *)

Section ContentShapes.

Variables ResponseRest ClientError : Type.

Implicit Types (response : ChatResponse ResponseRest).
Implicit Types (k : Console ResponseRest ClientError).

Lemma validateAndParse_on_content response (text : jsstring) k :
  text <> [] -> optional_content response = Present text ->
  outcome (validateAndParse response) k
  = match JSON_parse text with
    | inr v => Return v
    | inl pe => Throw (parse_failure pe text)
    end.
Proof.
  intros Hn Hc.
  rewrite validateAndParse_valid.
  - rewrite (message_content_present _ Hc).
    unfold outcome. now rewrite safeJsonParse_run.
  - apply isValidResponse_true. rewrite Hc.
    destruct text as [|c cs]; [contradiction | eauto].
Qed.

(** X7.  A content of white space only passes the structure check and
    then fails as a parse failure: the error thrown has the message
    [Failed to parse JSON], and its cause holds the [SyntaxError], raised
    at the end of the text, and the text itself as [rawResponse]. *)
Theorem validateAndParse_blank_text :
  forall response (ws : jsstring) k,
    ws <> [] -> blank ws = true ->
    optional_content response = Present ws ->
    isValidResponse response = true
    /\ exists e,
         outcome (validateAndParse response) k = Throw e
         /\ error_name e = Some (str "ChatResponseError")
         /\ error_message e = Some (str "Failed to parse JSON")
         /\ error_cause e
            = Some (VParseDetails
                      (VSyntaxError {| position := List.length ws |}) ws).
Proof.
  intros response ws k Hn Hb Hc. split.
  - apply isValidResponse_true. rewrite Hc.
    destruct ws as [|c cs]; [contradiction | eauto].
  - rewrite (@validateAndParse_on_content response ws k Hn Hc).
    rewrite JSONTextFacts.JSON_parse_blank by assumption.
    eexists. repeat split.
Qed.

(** X8.  Nothing is extracted from a reply: when the first unit after any
    leading white space cannot begin a JSON value (prose, a code fence),
    the whole reply is a parse failure, whatever follows: the error has
    the message [Failed to parse JSON], and its cause holds the
    [SyntaxError], raised at that unit, and the whole content as
    [rawResponse]. *)
Theorem validateAndParse_text_before_json :
  forall response (a : jsstring) (c : N) (r : jsstring) k,
    blank a = true -> JSONParse.is_ws c = false ->
    starts_value c = false ->
    optional_content response = Present (a ++ c :: r) ->
    exists e,
      outcome (validateAndParse response) k = Throw e
      /\ error_name e = Some (str "ChatResponseError")
      /\ error_message e = Some (str "Failed to parse JSON")
      /\ error_cause e
         = Some (VParseDetails
                   (VSyntaxError {| position := List.length a |})
                   (a ++ c :: r)).
Proof.
  intros response a c r k Ha Hw Hs Hc.
  rewrite (@validateAndParse_on_content response (a ++ c :: r) k);
    [|now destruct a|assumption].
  rewrite JSONTextFacts.JSON_parse_bad_start by assumption.
  eexists. repeat split.
Qed.

(** X9.  White space around the JSON does not matter: a content that is a
    JSON text between two runs of spaces, tabs and line breaks gives the
    value of the JSON text alone. *)
Theorem validateAndParse_padded_json :
  forall response (a text b : jsstring) (v : json) k,
    blank a = true -> blank b = true -> JSON_parse text = inr v ->
    optional_content response = Present (a ++ text ++ b) ->
    outcome (validateAndParse response) k = Return v.
Proof.
  intros response a text b v k Ha Hb Hp Hc.
  rewrite (@validateAndParse_on_content response (a ++ text ++ b) k);
    [|intros E|assumption].
  - now rewrite (@JSONTextFacts.JSON_parse_padded a text b v Ha Hb Hp).
  - apply app_eq_nil in E as [_ E]. apply app_eq_nil in E as [E _].
    subst text. destruct (JSON_parse_empty) as [pe E]. congruence.
Qed.

End ContentShapes.

(* ================================================================= *)
(** ** [JSON.parse] reads back what [JSON.stringify] writes *)

Module JSONRoundTrip.
Import JSONParse JSONStringify JSONParseFacts JSONTextFacts.

#[local] Arguments N.eqb : simpl never.
#[local] Arguments N.leb : simpl never.
#[local] Arguments N.ltb : simpl never.
#[local] Arguments str : simpl never.
#[local] Arguments parse_number : simpl never.
#[local] Arguments parse_literal : simpl never.
#[local] Arguments parse_chars : simpl never.

(** *** String literals *)

Lemma hex_value_digit (n : N) :
  (n < 16)%N -> hex_value (hex_digit n) = Some n.
Proof.
  intros H. destruct n as [|p]; [reflexivity|].
  do 4 (destruct p as [p|p|]; try reflexivity); exfalso; lia.
Qed.

Lemma hex4_digits (c : N) :
  (c < 65536)%N ->
  hex4 (hex_digit (N.modulo (N.div c 4096) 16))
       (hex_digit (N.modulo (N.div c 256) 16))
       (hex_digit (N.modulo (N.div c 16) 16))
       (hex_digit (N.modulo c 16)) = Some c.
Proof.
  intros H. unfold hex4.
  rewrite !hex_value_digit by (apply N.mod_lt; discriminate).
  f_equal. zify. Z.to_euclidean_division_equations. lia.
Qed.

Lemma parse_chars_escape (c : N) (s acc : jsstring) :
  (c < 65536)%N ->
  parse_chars (unicode_escape c ++ s) acc = parse_chars s (c :: acc).
Proof.
  intros H. unfold unicode_escape. simpl app.
  rewrite parse_chars_cons.
  change (N.eqb Ch.backslash Ch.quote) with false.
  change (N.eqb Ch.backslash Ch.backslash) with true.
  change (N.eqb 117 117) with true. cbv iota.
  now rewrite hex4_digits.
Qed.

Lemma parse_chars_verbatim (c : N) (s acc : jsstring) :
  N.eqb c Ch.quote = false -> N.eqb c Ch.backslash = false ->
  N.ltb c 32 = false ->
  parse_chars (c :: s) acc = parse_chars s (c :: acc).
Proof. intros Hq Hb Hl. rewrite parse_chars_cons. now rewrite Hq, Hb, Hl. Qed.

Lemma surrogate_verbatim (c : N) (s acc : jsstring) :
  (55296 <= c)%N -> parse_chars (c :: s) acc = parse_chars s (c :: acc).
Proof.
  intros H. apply parse_chars_verbatim.
  - apply N.eqb_neq. unfold Ch.quote. lia.
  - apply N.eqb_neq. unfold Ch.backslash. lia.
  - apply N.ltb_ge. lia.
Qed.

Lemma parse_chars_quote_unit (c : N) (s acc : jsstring) :
  parse_chars (quote_unit c ++ s) acc = parse_chars s (c :: acc).
Proof.
  unfold quote_unit.
  destruct (N.eqb c 8) eqn:E8; [apply N.eqb_eq in E8; now subst c|].
  destruct (N.eqb c Ch.tab) eqn:Et; [apply N.eqb_eq in Et; now subst c|].
  destruct (N.eqb c Ch.lf) eqn:El; [apply N.eqb_eq in El; now subst c|].
  destruct (N.eqb c 12) eqn:Ef; [apply N.eqb_eq in Ef; now subst c|].
  destruct (N.eqb c Ch.cr) eqn:Er; [apply N.eqb_eq in Er; now subst c|].
  destruct (N.eqb c Ch.quote) eqn:Eq;
    [apply N.eqb_eq in Eq; now subst c|].
  destruct (N.eqb c Ch.backslash) eqn:Eb;
    [apply N.eqb_eq in Eb; now subst c|].
  destruct (N.ltb c 32) eqn:E32.
  - apply parse_chars_escape. apply N.ltb_lt in E32. lia.
  - now apply parse_chars_verbatim.
Qed.

Lemma quote_body_cons (c : N) (r : jsstring) :
  quote_body (c :: r)
  = if is_high_surrogate c then
      match r with
      | d :: r' =>
          if is_low_surrogate d then c :: d :: quote_body r'
          else unicode_escape c ++ quote_body r
      | [] => unicode_escape c
      end
    else if is_low_surrogate c then unicode_escape c ++ quote_body r
    else quote_unit c ++ quote_body r.
Proof. reflexivity. Qed.

(** The body of a quoted string, up to the closing quote, decodes to the
    string; this holds for every sequence of code units. *)
Lemma parse_chars_quote_body :
  forall n s r acc,
    List.length s <= n ->
    parse_chars (quote_body s ++ Ch.quote :: r) acc = POk (rev acc ++ s) r.
Proof.
  induction n as [|n IH]; intros s r acc Hn.
  { destruct s; [|simpl in Hn; lia]. simpl.
    rewrite parse_chars_cons. change (N.eqb Ch.quote Ch.quote) with true.
    cbv iota. now rewrite app_nil_r. }
  destruct s as [|c s].
  { simpl. rewrite parse_chars_cons.
    change (N.eqb Ch.quote Ch.quote) with true.
    cbv iota. now rewrite app_nil_r. }
  simpl in Hn.
  assert (forall t, List.length t <= n ->
            parse_chars (quote_body t ++ Ch.quote :: r) (c :: acc)
            = POk (rev acc ++ c :: t) r) as Next.
  { intros t Ht. rewrite IH by assumption. simpl.
    now rewrite <- app_assoc. }
  rewrite quote_body_cons.
  destruct (is_high_surrogate c) eqn:Eh.
  { unfold is_high_surrogate in Eh. apply andb_true_iff in Eh as [Lo Hi].
    apply N.leb_le in Lo, Hi.
    destruct s as [|d s'].
    - rewrite parse_chars_escape by lia.
      change (Ch.quote :: r) with (quote_body [] ++ Ch.quote :: r).
      apply Next. simpl. lia.
    - destruct (is_low_surrogate d) eqn:Ed.
      + unfold is_low_surrogate in Ed. apply andb_true_iff in Ed as [Lo' _].
        apply N.leb_le in Lo'.
        simpl app. rewrite surrogate_verbatim by lia.
        rewrite surrogate_verbatim by lia.
        rewrite IH by (simpl in Hn; lia).
        simpl. now rewrite <- !app_assoc.
      + rewrite <- app_assoc, parse_chars_escape by lia.
        apply Next. lia. }
  destruct (is_low_surrogate c) eqn:El.
  { unfold is_low_surrogate in El. apply andb_true_iff in El as [_ Hi].
    apply N.leb_le in Hi.
    rewrite <- app_assoc, parse_chars_escape by lia. apply Next. lia. }
  rewrite <- app_assoc, parse_chars_quote_unit. apply Next. lia.
Qed.

Lemma parse_chars_quoted (s r : jsstring) :
  parse_chars (quote_body s ++ Ch.quote :: r) [] = POk s r.
Proof. now apply (@parse_chars_quote_body (List.length s)). Qed.

(** *** One step of each parser *)

Lemma skip_ws_idem (s : jsstring) : skip_ws (skip_ws s) = skip_ws s.
Proof.
  induction s as [|c s IH]; simpl; [reflexivity|].
  destruct (is_ws c) eqn:E; [assumption|]. simpl. now rewrite E.
Qed.

Lemma parse_value_skip (f : nat) (s : jsstring) :
  parse_value f (skip_ws s) = parse_value f s.
Proof. destruct f; [reflexivity|]. simpl. now rewrite skip_ws_idem. Qed.

Lemma parse_value_lead (f : nat) (a s : jsstring) :
  blank a = true -> parse_value f (a ++ s) = parse_value f s.
Proof.
  intros Ha. rewrite <- (parse_value_skip f (a ++ s)).
  rewrite skip_ws_app_blank by assumption. apply parse_value_skip.
Qed.

Lemma parse_elements_skip (f : nat) (s : jsstring) (acc : list json) :
  parse_elements f (skip_ws s) acc = parse_elements f s acc.
Proof. destruct f; [reflexivity|]. simpl. now rewrite parse_value_skip. Qed.

Lemma parse_elements_lead (f : nat) (a s : jsstring) (acc : list json) :
  blank a = true -> parse_elements f (a ++ s) acc = parse_elements f s acc.
Proof.
  intros Ha. rewrite <- (parse_elements_skip f (a ++ s)).
  rewrite skip_ws_app_blank by assumption. apply parse_elements_skip.
Qed.

Lemma parse_members_skip (f : nat) (s : jsstring)
  (acc : list (jsstring * json)) :
  parse_members f (skip_ws s) acc = parse_members f s acc.
Proof. destruct f; [reflexivity|]. simpl. now rewrite skip_ws_idem. Qed.

Lemma parse_members_lead (f : nat) (a s : jsstring)
  (acc : list (jsstring * json)) :
  blank a = true -> parse_members f (a ++ s) acc = parse_members f s acc.
Proof.
  intros Ha. rewrite <- (parse_members_skip f (a ++ s)).
  rewrite skip_ws_app_blank by assumption. apply parse_members_skip.
Qed.

Lemma array_open (f : nat) (r : jsstring) (c : N) (r' : jsstring) :
  skip_ws r = c :: r' -> N.eqb c Ch.rbracket = false ->
  parse_value (S f) (Ch.lbracket :: r) = parse_elements f r [].
Proof.
  intros Hs Hc.
  change (parse_value (S f) (Ch.lbracket :: r))
    with (match skip_ws r with
          | [] => PSyntax []
          | c' :: r' =>
              if N.eqb c' Ch.rbracket then POk (JArray []) r'
              else parse_elements f (c' :: r') []
          end).
  rewrite Hs, Hc, <- Hs. apply parse_elements_skip.
Qed.

Lemma object_open (f : nat) (r : jsstring) (c : N) (r' : jsstring) :
  skip_ws r = c :: r' -> N.eqb c Ch.rbrace = false ->
  parse_value (S f) (Ch.lbrace :: r) = parse_members f r [].
Proof.
  intros Hs Hc.
  change (parse_value (S f) (Ch.lbrace :: r))
    with (match skip_ws r with
          | [] => PSyntax []
          | c' :: r' =>
              if N.eqb c' Ch.rbrace then POk (JObject []) r'
              else parse_members f (c' :: r') []
          end).
  rewrite Hs, Hc, <- Hs. apply parse_members_skip.
Qed.

Lemma string_open (f : nat) (t : jsstring) :
  parse_value (S f) (Ch.quote :: t)
  = match parse_chars t [] with
    | POk k r' => POk (JString k) r'
    | PSyntax y => PSyntax y
    | PFuel => PFuel
    end.
Proof. reflexivity. Qed.

Lemma elements_more (f : nat) (s : jsstring) (acc : list json) (v : json)
  (r r' : jsstring) :
  parse_value f s = POk v r -> skip_ws r = Ch.comma :: r' ->
  parse_elements (S f) s acc = parse_elements f r' (v :: acc).
Proof. intros Hv Hs. simpl. now rewrite Hv, Hs. Qed.

Lemma elements_last (f : nat) (s : jsstring) (acc : list json) (v : json)
  (r r' : jsstring) :
  parse_value f s = POk v r -> skip_ws r = Ch.rbracket :: r' ->
  parse_elements (S f) s acc = POk (JArray (rev (v :: acc))) r'.
Proof. intros Hv Hs. simpl. now rewrite Hv, Hs. Qed.

Lemma members_more (f : nat) (s : jsstring) (acc : list (jsstring * json))
  (key : jsstring) (v : json) (r0 r1 r2 r3 r4 : jsstring) :
  skip_ws s = Ch.quote :: r0 -> parse_chars r0 [] = POk key r1 ->
  skip_ws r1 = Ch.colon :: r2 -> parse_value f r2 = POk v r3 ->
  skip_ws r3 = Ch.comma :: r4 ->
  parse_members (S f) s acc = parse_members f r4 (set_member key v acc).
Proof.
  intros H0 H1 H2 H3 H4. simpl. now rewrite H0, H1, H2, H3, H4.
Qed.

Lemma members_last (f : nat) (s : jsstring) (acc : list (jsstring * json))
  (key : jsstring) (v : json) (r0 r1 r2 r3 r4 : jsstring) :
  skip_ws s = Ch.quote :: r0 -> parse_chars r0 [] = POk key r1 ->
  skip_ws r1 = Ch.colon :: r2 -> parse_value f r2 = POk v r3 ->
  skip_ws r3 = Ch.rbrace :: r4 ->
  parse_members (S f) s acc = POk (JObject (set_member key v acc)) r4.
Proof.
  intros H0 H1 H2 H3 H4. simpl. now rewrite H0, H1, H2, H3, H4.
Qed.

(** *** The first unit of a serialized value *)

Lemma digit_bounds (c : N) :
  is_digit c = true -> (48 <= c <= 57)%N.
Proof.
  unfold is_digit, Ch.zero, Ch.nine. intros H.
  apply andb_true_iff in H as [L U]. apply N.leb_le in L, U. lia.
Qed.

Lemma starts_value_facts (c : N) :
  starts_value c = true ->
  is_ws c = false /\ N.eqb c Ch.rbracket = false
  /\ N.eqb c Ch.rbrace = false.
Proof.
  unfold starts_value. intros H.
  repeat (apply orb_true_iff in H as [H|H]);
    try (apply N.eqb_eq in H; subst c; repeat split; reflexivity).
  apply digit_bounds in H.
  unfold is_ws, Ch.tab, Ch.lf, Ch.cr, Ch.space, Ch.rbracket, Ch.rbrace.
  repeat split;
    repeat (apply orb_false_iff; split); apply N.eqb_neq; lia.
Qed.

Lemma number_token_spec (t : jsstring) :
  number_token t = true -> parse_number t = POk t [].
Proof.
  unfold number_token.
  destruct (parse_number t) as [n [|c r]| |]; try discriminate.
  unfold jsstring_eqb. destruct (jsstring_eq_dec n t); [|discriminate].
  now subst n.
Qed.

Lemma number_head (t n r : jsstring) :
  parse_number t = POk n r ->
  exists c t', t = c :: t'
               /\ (N.eqb c Ch.minus = true \/ is_digit c = true).
Proof.
  unfold parse_number. destruct t as [|c t'].
  { discriminate. }
  intros H. exists c, t'. split; [reflexivity|].
  destruct (N.eqb c Ch.minus); [now left|]. right.
  unfold parse_int in H.
  destruct (N.eqb c Ch.zero) eqn:E0.
  { apply N.eqb_eq in E0. now subst c. }
  destruct (is_digit c); [reflexivity | discriminate].
Qed.

Lemma number_head_dispatch (c : N) :
  N.eqb c Ch.minus = true \/ is_digit c = true ->
  is_ws c = false /\ N.eqb c Ch.lbrace = false
  /\ N.eqb c Ch.lbracket = false /\ N.eqb c Ch.quote = false
  /\ N.eqb c 116 = false /\ N.eqb c 102 = false /\ N.eqb c 110 = false
  /\ starts_value c = true.
Proof.
  intros [H|H].
  - apply N.eqb_eq in H. subst c. repeat split; reflexivity.
  - pose proof (digit_bounds _ H) as B.
    unfold starts_value. rewrite H.
    unfold is_ws, Ch.tab, Ch.lf, Ch.cr, Ch.space, Ch.lbrace, Ch.lbracket,
      Ch.quote.
    repeat split;
      try (repeat (apply orb_false_iff; split); apply N.eqb_neq; lia).
    now rewrite !orb_true_r.
Qed.

(** *** Scalars *)

Lemma reads_literal (word : string) (v : json) (x : jsstring) :
  (forall f, parse_value (S f) (str word ++ x) = POk v x) ->
  reads (str word ++ x) v x.
Proof.
  intros H. exists 1. intros [|f] Hf; [lia | apply H].
Qed.

Lemma reads_string (s x : jsstring) :
  reads (QuoteJSONString s ++ x) (JString s) x.
Proof.
  exists 1. intros [|f] Hf; [lia|].
  unfold QuoteJSONString. simpl app. rewrite <- app_assoc. simpl app.
  now rewrite string_open, parse_chars_quoted.
Qed.

Lemma reads_number (t x : jsstring) :
  number_token t = true -> stops x = true ->
  reads (t ++ x) (JNumber t) x.
Proof.
  intros Ht Hx. apply number_token_spec in Ht.
  pose proof (@parse_number_app _ _ _ _ Hx Ht) as Hn. simpl in Hn.
  destruct (number_head _ Ht) as (c & t' & -> & Hc).
  destruct (number_head_dispatch _ Hc)
    as (Hw & H1 & H2 & H3 & H4 & H5 & H6 & _).
  exists 1. intros [|f] Hf; [lia|].
  simpl. rewrite Hw, H1, H2, H3, H4, H5, H6.
  change (c :: t' ++ x) with ((c :: t') ++ x). now rewrite Hn.
Qed.

(** *** Lists of elements and of members *)

Lemma join_head (sep p : jsstring) (ps : list jsstring) :
  join sep (p :: ps)
  = p ++ match ps with [] => [] | _ :: _ => sep ++ join sep ps end.
Proof. destruct ps; simpl; [now rewrite app_nil_r | reflexivity]. Qed.

Lemma stops_after_blank (a : jsstring) (c : N) (x : jsstring) :
  blank a = true -> number_stop c = true -> stops (a ++ c :: x) = true.
Proof.
  destruct a as [|d a]; simpl; [now intros _|].
  intros H _. apply andb_true_iff in H as [H _].
  now apply is_ws_number_stop.
Qed.

Lemma skip_ws_to (a : jsstring) (c : N) (x : jsstring) :
  blank a = true -> is_ws c = false -> skip_ws (a ++ c :: x) = c :: x.
Proof.
  intros Ha Hc. rewrite skip_ws_app_blank by assumption.
  now apply skip_ws_stays.
Qed.

Lemma elements_loop (ser : json -> jsstring) (ws1 ws2 x : jsstring) :
  blank ws1 = true -> blank ws2 = true ->
  forall es,
    Forall (fun e => forall y, stops y = true -> reads (ser e ++ y) e y) es ->
    es <> [] ->
    forall ws0 acc, blank ws0 = true ->
      exists f0, forall f, f0 <= f ->
        parse_elements f
          (ws0 ++ join (Ch.comma :: ws1) (map ser es)
               ++ ws2 ++ Ch.rbracket :: x) acc
        = POk (JArray (rev acc ++ es)) x.
Proof.
  intros H1 H2. induction es as [|e es IH]; intros HF Hne ws0 acc H0.
  { contradiction. }
  inversion HF as [|? ? He HF']; subst.
  simpl map. rewrite join_head, <- app_assoc.
  destruct es as [|e2 es'].
  - simpl map. simpl app.
    destruct (He (ws2 ++ Ch.rbracket :: x)) as [fe Hfe].
    { now apply stops_after_blank. }
    exists (S fe). intros [|f] Hf; [lia|].
    rewrite parse_elements_lead by assumption.
    rewrite (@elements_last f _ acc e (ws2 ++ Ch.rbracket :: x) x).
    + simpl. reflexivity.
    + apply Hfe. lia.
    + now apply skip_ws_to.
  - destruct (He ((Ch.comma :: ws1)
                    ++ join (Ch.comma :: ws1) (map ser (e2 :: es'))
                    ++ ws2 ++ Ch.rbracket :: x)) as [fe Hfe].
    { reflexivity. }
    destruct (IH HF' ltac:(discriminate) ws1 (e :: acc) H1) as [fr Hfr].
    exists (S (Nat.max fe fr)). intros [|f] Hf; [lia|].
    rewrite parse_elements_lead by assumption.
    change (match map ser (e2 :: es') with
            | [] => []
            | _ :: _ =>
                (Ch.comma :: ws1)
                  ++ join (Ch.comma :: ws1) (map ser (e2 :: es'))
            end)
      with ((Ch.comma :: ws1)
              ++ join (Ch.comma :: ws1) (map ser (e2 :: es'))).
    rewrite <- app_assoc.
    rewrite (@elements_more f _ acc e _ _ (Hfe f ltac:(lia)) eq_refl).
    rewrite Hfr by lia. simpl. now rewrite <- app_assoc.
Qed.

Lemma jsstring_eqb_eq (a b : jsstring) : jsstring_eqb a b = true <-> a = b.
Proof.
  unfold jsstring_eqb. destruct (jsstring_eq_dec a b); split;
    congruence.
Qed.

Lemma distinct_NoDup (keys : list jsstring) :
  distinct keys = true -> NoDup keys.
Proof.
  induction keys as [|key keys IH]; simpl; [constructor|].
  intros H. apply andb_true_iff in H as [Hn Hd].
  constructor; [|now apply IH].
  intros Hin. apply negb_true_iff in Hn.
  assert (existsb (jsstring_eqb key) keys = true) as E; [|congruence].
  apply existsb_exists. exists key. split; [assumption|].
  now apply jsstring_eqb_eq.
Qed.

(** A key the object does not have yet is added last. *)
Lemma set_member_fresh (key : jsstring) (v : json)
  (acc : list (jsstring * json)) :
  ~ In key (map fst acc) -> set_member key v acc = acc ++ [(key, v)].
Proof.
  induction acc as [|[k w] acc IH]; simpl; [reflexivity|].
  intros H. destruct (jsstring_eqb k key) eqn:E.
  - apply jsstring_eqb_eq in E. tauto.
  - rewrite IH by tauto. reflexivity.
Qed.

Lemma member_shape (key sp body rest : jsstring) :
  (QuoteJSONString key ++ Ch.colon :: sp ++ body) ++ rest
  = Ch.quote :: quote_body key
      ++ Ch.quote :: Ch.colon :: sp ++ body ++ rest.
Proof.
  unfold QuoteJSONString. simpl.
  repeat (rewrite <- app_assoc; simpl). reflexivity.
Qed.

Lemma members_open (f : nat) (t : jsstring)
  (acc : list (jsstring * json)) :
  parse_members (S f) (Ch.quote :: t) acc
  = match parse_chars t [] with
    | POk key r1 =>
        match skip_ws r1 with
        | [] => PSyntax []
        | col :: r2 =>
            if N.eqb col Ch.colon then
              match parse_value f r2 with
              | POk v r3 =>
                  match skip_ws r3 with
                  | [] => PSyntax []
                  | c :: r4 =>
                      if N.eqb c Ch.comma then
                        parse_members f r4 (set_member key v acc)
                      else if N.eqb c Ch.rbrace then
                        POk (JObject (set_member key v acc)) r4
                      else PSyntax (c :: r4)
                  end
              | PSyntax y => PSyntax y
              | PFuel => PFuel
              end
            else PSyntax (col :: r2)
        end
    | PSyntax y => PSyntax y
    | PFuel => PFuel
    end.
Proof. reflexivity. Qed.

(** One member, a quoted key, a colon and a value that is read as [v]. *)
Lemma member_step (f : nat) (key sp body rest : jsstring) (v : json)
  (acc : list (jsstring * json)) :
  blank sp = true -> parse_value f (body ++ rest) = POk v rest ->
  parse_members (S f)
    (Ch.quote :: quote_body key
       ++ Ch.quote :: Ch.colon :: sp ++ body ++ rest) acc
  = match skip_ws rest with
    | [] => PSyntax []
    | c :: r4 =>
        if N.eqb c Ch.comma then parse_members f r4 (set_member key v acc)
        else if N.eqb c Ch.rbrace then
          POk (JObject (set_member key v acc)) r4
        else PSyntax (c :: r4)
    end.
Proof.
  intros Hsp Hv. rewrite members_open, parse_chars_quoted.
  change (skip_ws (Ch.colon :: sp ++ body ++ rest))
    with (Ch.colon :: sp ++ body ++ rest).
  change (N.eqb Ch.colon Ch.colon) with true. cbv iota.
  now rewrite parse_value_lead, Hv.
Qed.

Lemma join_members_single (ser : json -> jsstring)
  (sep sp key : jsstring) (w : json) (tail : jsstring) :
  join sep (map (fun kv => QuoteJSONString (fst kv)
                             ++ Ch.colon :: sp ++ ser (snd kv)) [(key, w)])
    ++ tail
  = Ch.quote :: quote_body key
      ++ Ch.quote :: Ch.colon :: sp ++ ser w ++ tail.
Proof. simpl. apply member_shape. Qed.

Lemma join_members_more (ser : json -> jsstring)
  (sep sp key : jsstring) (w : json) (m2 : jsstring * json)
  (ms : list (jsstring * json)) (tail : jsstring) :
  join sep (map (fun kv => QuoteJSONString (fst kv)
                             ++ Ch.colon :: sp ++ ser (snd kv))
              ((key, w) :: m2 :: ms))
    ++ tail
  = Ch.quote :: quote_body key
      ++ Ch.quote :: Ch.colon :: sp ++ ser w
      ++ sep
      ++ join sep (map (fun kv => QuoteJSONString (fst kv)
                                    ++ Ch.colon :: sp ++ ser (snd kv))
                     (m2 :: ms))
      ++ tail.
Proof.
  rewrite map_cons, join_head. simpl fst. simpl snd.
  change (match map (fun kv : jsstring * json =>
                       QuoteJSONString (fst kv)
                         ++ Ch.colon :: sp ++ ser (snd kv)) (m2 :: ms) with
          | [] => []
          | _ :: _ =>
              sep ++ join sep
                       (map (fun kv : jsstring * json =>
                               QuoteJSONString (fst kv)
                                 ++ Ch.colon :: sp ++ ser (snd kv))
                          (m2 :: ms))
          end)
    with (sep ++ join sep
                   (map (fun kv : jsstring * json =>
                           QuoteJSONString (fst kv)
                             ++ Ch.colon :: sp ++ ser (snd kv))
                      (m2 :: ms))).
  rewrite <- app_assoc, member_shape. now rewrite <- !app_assoc.
Qed.

Lemma members_loop (ser : json -> jsstring) (sp ws1 ws2 x : jsstring) :
  blank sp = true -> blank ws1 = true -> blank ws2 = true ->
  forall ms,
    Forall (fun kv => forall y, stops y = true ->
                        reads (ser (snd kv) ++ y) (snd kv) y) ms ->
    ms <> [] -> NoDup (map fst ms) ->
    forall ws0 acc,
      blank ws0 = true ->
      (forall key, In key (map fst ms) -> ~ In key (map fst acc)) ->
      exists f0, forall f, f0 <= f ->
        parse_members f
          (ws0 ++ join (Ch.comma :: ws1)
                    (map (fun kv => QuoteJSONString (fst kv)
                                      ++ Ch.colon :: sp ++ ser (snd kv)) ms)
               ++ ws2 ++ Ch.rbrace :: x) acc
        = POk (JObject (acc ++ ms)) x.
Proof.
  intros Hsp H1 H2.
  induction ms as [|[k w] ms IH]; intros HF Hne Hnd ws0 acc H0 Hfresh.
  { contradiction. }
  inversion HF as [|? ? He HF']; subst. simpl in He.
  inversion Hnd as [|? ? Hk Hnd']; subst.
  assert (~ In k (map fst acc)) as Hka by (apply Hfresh; now left).
  destruct ms as [|m2 ms'].
  - rewrite join_members_single.
    destruct (He (ws2 ++ Ch.rbrace :: x)) as [fe Hfe].
    { now apply stops_after_blank. }
    exists (S fe). intros [|f] Hf; [lia|].
    rewrite parse_members_lead by assumption.
    rewrite (@member_step f k sp (ser w) _ w acc Hsp (Hfe f ltac:(lia))).
    rewrite skip_ws_to by (assumption || reflexivity).
    change (N.eqb Ch.rbrace Ch.comma) with false.
    change (N.eqb Ch.rbrace Ch.rbrace) with true. cbv iota.
    now rewrite set_member_fresh.
  - rewrite join_members_more.
    set (more := join (Ch.comma :: ws1)
                   (map (fun kv : jsstring * json =>
                           QuoteJSONString (fst kv)
                             ++ Ch.colon :: sp ++ ser (snd kv))
                      (m2 :: ms'))
                   ++ ws2 ++ Ch.rbrace :: x) in *.
    destruct (He ((Ch.comma :: ws1) ++ more)) as [fe Hfe].
    { reflexivity. }
    destruct (IH HF' ltac:(discriminate) Hnd' ws1 (acc ++ [(k, w)]) H1)
      as [fr Hfr].
    { intros key Hin. rewrite map_app, in_app_iff. simpl.
      intros [Ha|[<-|[]]].
      - apply (Hfresh key); [now right | assumption].
      - contradiction. }
    exists (S (Nat.max fe fr)). intros [|f] Hf; [lia|].
    rewrite parse_members_lead by assumption.
    rewrite (@member_step f k sp (ser w) _ w acc Hsp (Hfe f ltac:(lia))).
    change (skip_ws ((Ch.comma :: ws1) ++ more))
      with (Ch.comma :: ws1 ++ more).
    change (N.eqb Ch.comma Ch.comma) with true. cbv iota.
    rewrite set_member_fresh by assumption.
    rewrite Hfr by lia. now rewrite <- app_assoc.
Qed.


(** *** The layout of arrays and objects *)

Lemma wrap_shape (opening closing : N) (indent gap : jsstring)
  (parts : list jsstring) :
  blank gap = true -> blank indent = true -> parts <> [] ->
  exists ws0 ws1 ws2,
    blank ws0 = true /\ blank ws1 = true /\ blank ws2 = true
    /\ forall x,
         wrap opening closing indent gap parts ++ x
         = opening :: ws0 ++ join (Ch.comma :: ws1) parts
             ++ ws2 ++ closing :: x.
Proof.
  intros Hg Hi Hp. destruct parts as [|p ps]; [contradiction|].
  unfold wrap. destruct gap as [|g gs].
  - exists [], [], []. repeat split. intros x. simpl app.
    now rewrite <- app_assoc.
  - exists (Ch.lf :: indent ++ g :: gs), (Ch.lf :: indent ++ g :: gs),
      (Ch.lf :: indent).
    assert (blank (Ch.lf :: indent ++ g :: gs) = true) as Hb.
    { change (blank (Ch.lf :: indent ++ g :: gs))
        with (blank (indent ++ g :: gs)).
      now rewrite blank_app, Hi, Hg. }
    repeat split; try assumption. intros x. cbv zeta. simpl app.
    repeat (rewrite <- app_assoc; simpl app). reflexivity.
Qed.

Lemma serialize_object (gap indent : jsstring)
  (ms : list (jsstring * json)) :
  serialize gap indent (JObject ms)
  = wrap Ch.lbrace Ch.rbrace indent gap
      (map (fun kv => QuoteJSONString (fst kv)
                        ++ Ch.colon
                        :: match gap with [] => [] | _ :: _ => [Ch.space] end
                        ++ serialize gap (indent ++ gap) (snd kv)) ms).
Proof.
  simpl. f_equal. induction ms as [|[k w] ms IH]; [reflexivity|].
  simpl. now rewrite IH.
Qed.

Lemma serialize_head (gap indent : jsstring) (v : json) :
  well_formed v = true ->
  exists c r, serialize gap indent v = c :: r /\ starts_value c = true.
Proof.
  destruct v as [|[|]|t|s|es|ms]; intros H.
  - now exists 110%N, (str "ull").
  - now exists 116%N, (str "rue").
  - now exists 102%N, (str "alse").
  - simpl in H. apply number_token_spec in H.
    destruct (number_head _ H) as (c & t' & -> & Hc).
    exists c, t'. split; [reflexivity|].
    now apply number_head_dispatch.
  - eexists _, _. split; [reflexivity|reflexivity].
  - simpl. unfold wrap.
    destruct (map (serialize gap (indent ++ gap)) es);
      [|destruct gap]; eexists _, _; split; reflexivity.
  - rewrite serialize_object. unfold wrap.
    match goal with |- context [map ?f ms] => destruct (map f ms) end;
      [|destruct gap]; eexists _, _; split; reflexivity.
Qed.

Lemma well_formed_array (es : list json) :
  well_formed (JArray es) = true ->
  Forall (fun e => well_formed e = true) es.
Proof. simpl. intros H. apply Forall_forall. now apply forallb_forall. Qed.

Lemma well_formed_object (ms : list (jsstring * json)) :
  well_formed (JObject ms) = true ->
  NoDup (map fst ms) /\ Forall (fun kv => well_formed (snd kv) = true) ms.
Proof.
  simpl. intros H. apply andb_true_iff in H as [Hd He].
  split; [now apply distinct_NoDup|].
  induction ms as [|[k w] ms IH]; constructor.
  - simpl. now apply andb_true_iff in He as [He _].
  - apply IH.
    + simpl in Hd. now apply andb_true_iff in Hd as [_ Hd].
    + now apply andb_true_iff in He as [_ He].
Qed.

Lemma json_induction (P : json -> Prop) :
  P JNull -> (forall b, P (JBool b)) -> (forall t, P (JNumber t)) ->
  (forall s, P (JString s)) ->
  (forall es, Forall P es -> P (JArray es)) ->
  (forall ms, Forall (fun kv => P (snd kv)) ms -> P (JObject ms)) ->
  forall v, P v.
Proof.
  intros HN HB HT HS HA HO. fix IH 1. intros [|b|t|s|es|ms].
  - exact HN.
  - apply HB.
  - apply HT.
  - apply HS.
  - apply HA. induction es as [|e es IHes]; constructor;
      [apply IH | exact IHes].
  - apply HO. induction ms as [|[k w] ms IHms]; constructor;
      [apply IH | exact IHms].
Qed.

Lemma blank_repeat (n : nat) : blank (repeat Ch.space n) = true.
Proof. induction n as [|n IH]; [reflexivity | exact IH]. Qed.

(** Every well-formed value is read back from its serialization, at any
    indentation and before any continuation that cannot extend a
    number. *)
Lemma reads_serialize :
  forall v,
    well_formed v = true ->
    forall gap indent x,
      blank gap = true -> blank indent = true -> stops x = true ->
      reads (serialize gap indent v ++ x) v x.
Proof.
  induction v as [|b|t|s|es IH|ms IH] using json_induction;
    intros Hwf gap indent x Hg Hi Hx.
  - apply reads_literal. reflexivity.
  - destruct b; apply reads_literal; reflexivity.
  - now apply reads_number.
  - apply reads_string.
  - destruct es as [|e es'].
    { exists 1. intros [|f] Hf; [lia | reflexivity]. }
    pose proof (well_formed_array _ Hwf) as Hes.
    set (ser := serialize gap (indent ++ gap)).
    assert (blank (indent ++ gap) = true) as Hig
        by now rewrite blank_app, Hi, Hg.
    assert (Forall (fun e0 => forall y, stops y = true ->
                                reads (ser e0 ++ y) e0 y) (e :: es'))
      as HF.
    { apply Forall_forall. intros e0 Hin y Hy.
      rewrite Forall_forall in IH, Hes.
      apply IH; auto. }
    destruct (@wrap_shape Ch.lbracket Ch.rbracket indent gap
                (map ser (e :: es')) Hg Hi ltac:(discriminate))
      as (ws0 & ws1 & ws2 & H0 & H1 & H2 & Hshape).
    destruct (@elements_loop ser ws1 ws2 x H1 H2 (e :: es') HF
                ltac:(discriminate) ws0 [] H0) as [f0 Hf0].
    change (serialize gap indent (JArray (e :: es')))
      with (wrap Ch.lbracket Ch.rbracket indent gap (map ser (e :: es'))).
    rewrite Hshape.
    destruct (@serialize_head gap (indent ++ gap) e) as (c & r & Hc & Hs).
    { now inversion Hes. }
    destruct (starts_value_facts _ Hs) as (Hw & Hb & _).
    exists (S f0). intros [|f] Hf; [lia|].
    rewrite (@array_open f _ c
               (r ++ match map ser es' with
                     | [] => []
                     | _ :: _ =>
                         (Ch.comma :: ws1) ++ join (Ch.comma :: ws1) (map ser es')
                     end ++ ws2 ++ Ch.rbracket :: x)).
    + apply Hf0. lia.
    + rewrite map_cons, join_head. fold ser in Hc. rewrite Hc.
      simpl app. rewrite <- app_assoc.
      now apply skip_ws_to.
    + assumption.
  - destruct ms as [|m ms'].
    { exists 1. intros [|f] Hf; [lia | reflexivity]. }
    destruct (well_formed_object _ Hwf) as [Hnd Hms].
    set (ser := serialize gap (indent ++ gap)).
    set (sp := match gap with [] => [] | _ :: _ => [Ch.space] end).
    assert (blank sp = true) as Hsp by (unfold sp; now destruct gap).
    assert (blank (indent ++ gap) = true) as Hig
        by now rewrite blank_app, Hi, Hg.
    assert (Forall (fun kv => forall y, stops y = true ->
                                reads (ser (snd kv) ++ y) (snd kv) y)
              (m :: ms')) as HF.
    { apply Forall_forall. intros kv Hin y Hy.
      rewrite Forall_forall in IH, Hms.
      apply IH; auto. }
    set (mt := fun kv : jsstring * json =>
                 QuoteJSONString (fst kv) ++ Ch.colon :: sp ++ ser (snd kv)).
    destruct (@wrap_shape Ch.lbrace Ch.rbrace indent gap
                (map mt (m :: ms')) Hg Hi ltac:(discriminate))
      as (ws0 & ws1 & ws2 & H0 & H1 & H2 & Hshape).
    destruct (@members_loop ser sp ws1 ws2 x Hsp H1 H2 (m :: ms') HF
                ltac:(discriminate) Hnd ws0 [] H0) as [f0 Hf0].
    { intros key _ []. }
    rewrite serialize_object. fold sp. fold ser. fold mt.
    rewrite Hshape.
    exists (S f0). intros [|f] Hf; [lia|].
    rewrite (@object_open f _ Ch.quote
               (quote_body (fst m)
                  ++ Ch.quote :: Ch.colon :: sp ++ ser (snd m)
                  ++ match map mt ms' with
                     | [] => []
                     | _ :: _ =>
                         (Ch.comma :: ws1)
                           ++ join (Ch.comma :: ws1) (map mt ms')
                     end ++ ws2 ++ Ch.rbrace :: x)).
    + apply Hf0. lia.
    + rewrite map_cons, join_head. unfold mt at 1.
      rewrite <- app_assoc, member_shape.
      now rewrite skip_ws_to by (assumption || reflexivity).
    + reflexivity.
Qed.

Lemma stringify_reads (v : json) (space : nat) :
  well_formed v = true -> reads (JSON_stringify v space) v [].
Proof.
  intros H. unfold JSON_stringify.
  rewrite <- (app_nil_r (serialize _ _ v)).
  apply reads_serialize; try reflexivity; [assumption|].
  apply blank_repeat.
Qed.

Lemma reads_JSON_parse (text : jsstring) (v : json) :
  reads text v [] -> JSON_parse text = inr v.
Proof.
  intros [f0 H]. apply JSON_parse_inr. exists []. split; [|reflexivity].
  apply parse_value_at_budget with (f := f0). now apply H.
Qed.

(** *** Portable values are well formed *)

Lemma span_digits_all (ds : jsstring) :
  forallb is_digit ds = true -> span_digits ds = (ds, []).
Proof.
  induction ds as [|d ds IH]; simpl; [reflexivity|].
  intros H. apply andb_true_iff in H as [Hd Hr].
  now rewrite Hd, IH.
Qed.

Lemma natural_token_int (ds : jsstring) :
  natural_token ds = true -> parse_int ds = POk ds [].
Proof.
  unfold natural_token. destruct ds as [|c rest]; [discriminate|].
  intros H. apply andb_true_iff in H as [H _].
  apply andb_true_iff in H as [H Hr].
  apply andb_true_iff in H as [Lo Hi].
  apply N.leb_le in Lo, Hi.
  unfold parse_int.
  assert (N.eqb c Ch.zero = false) as ->
      by (apply N.eqb_neq; unfold Ch.zero; lia).
  assert (is_digit c = true) as ->.
  { unfold is_digit, Ch.zero, Ch.nine.
    apply andb_true_iff. split; apply N.leb_le; lia. }
  now rewrite span_digits_all.
Qed.

Lemma natural_token_head (ds : jsstring) :
  natural_token ds = true ->
  exists c rest, ds = c :: rest /\ N.eqb c Ch.minus = false.
Proof.
  unfold natural_token. destruct ds as [|c rest]; [discriminate|].
  intros H. apply andb_true_iff in H as [H _].
  apply andb_true_iff in H as [H _].
  apply andb_true_iff in H as [Lo _]. apply N.leb_le in Lo.
  exists c, rest. split; [reflexivity|].
  apply N.eqb_neq. unfold Ch.minus. lia.
Qed.

Lemma jsstring_eqb_refl (a : jsstring) : jsstring_eqb a a = true.
Proof. now apply jsstring_eqb_eq. Qed.

Lemma safe_integer_number_token (t : jsstring) :
  safe_integer_token t = true -> number_token t = true.
Proof.
  unfold safe_integer_token. intros H.
  apply orb_true_iff in H as [H|H]; [apply orb_true_iff in H as [H|H]|].
  - apply jsstring_eqb_eq in H. now subst t.
  - destruct (natural_token_head _ H) as (c & rest & -> & Hm).
    unfold number_token, parse_number. rewrite Hm. cbv iota beta.
    rewrite natural_token_int by assumption.
    cbn [parse_frac parse_exp app]. rewrite app_nil_r.
    apply jsstring_eqb_refl.
  - destruct t as [|c ds]; [discriminate|].
    apply andb_true_iff in H as [Hm H].
    unfold number_token, parse_number. rewrite Hm. cbv iota beta.
    rewrite natural_token_int by assumption.
    cbn [parse_frac parse_exp app]. rewrite app_nil_r.
    apply jsstring_eqb_refl.
Qed.

Lemma portable_well_formed :
  forall v, portable v = true -> well_formed v = true.
Proof.
  induction v as [|b|t|s|es IH|ms IH] using json_induction; intros H;
    try reflexivity.
  - now apply safe_integer_number_token.
  - simpl in *. apply forallb_forall. intros e He.
    rewrite Forall_forall in IH. apply IH; [assumption|].
    rewrite forallb_forall in H. now apply H.
  - simpl in *. apply andb_true_iff in H as [H He].
    apply andb_true_iff in H as [Hd _]. rewrite Hd. simpl.
    induction ms as [|[k w] ms IHms]; [reflexivity|].
    apply andb_true_iff in He as [Hw He].
    inversion IH as [|? ? Pw Pms]; subst. simpl in Pw.
    rewrite (Pw Hw). simpl. apply IHms; try assumption.
    simpl in Hd. now apply andb_true_iff in Hd as [_ Hd].
Qed.

Lemma portable_reads (v : json) (space : nat) :
  portable v = true -> reads (JSON_stringify v space) v [].
Proof. intros H. now apply stringify_reads, portable_well_formed. Qed.

End JSONRoundTrip.

(** X10.  [JSON.parse] reads back what [JSON.stringify] writes: for a
    portable value (integers that the doubles hold exactly, no key twice
    and none made of digits) nested no deeper than engines accept, and
    for every indentation, parsing the serialized text gives the value
    again. *)
Theorem JSON_parse_stringify :
  forall (v : json) (space : nat),
    portable v = true -> depth v <= nesting_limit ->
    JSON_parse (JSON_stringify v space) = inr v.
Proof.
  intros v space H _.
  apply JSONRoundTrip.reads_JSON_parse.
  now apply JSONRoundTrip.portable_reads.
Qed.

(** X11.  The prompt determines its inputs: two calls of
    [constructMessages] that return the same messages were given the same
    city and, for schemas that are portable data of bounded depth, the
    same schema. *)
Theorem constructMessages_injective :
  forall (city1 city2 : jsstring) (schema1 schema2 : json),
    portable schema1 = true -> depth schema1 <= nesting_limit ->
    portable schema2 = true -> depth schema2 <= nesting_limit ->
    constructMessages city1 schema1 = constructMessages city2 schema2 ->
    city1 = city2 /\ schema1 = schema2.
Proof.
  intros city1 city2 schema1 schema2 H1 _ H2 _ H.
  unfold constructMessages in H. inversion H as [[Hs Hc]].
  split; [reflexivity|].
  apply app_inv_tail in Hs.
  pose proof (JSONRoundTrip.reads_JSON_parse
                (@JSONRoundTrip.portable_reads schema1 2 H1)) as P1.
  pose proof (JSONRoundTrip.reads_JSON_parse
                (@JSONRoundTrip.portable_reads schema2 2 H2)) as P2.
  rewrite Hs in P1. congruence.
Qed.

Section Stringified.

Variables ResponseRest ClientError : Type.

(** X12.  A reply whose content was produced by [JSON.stringify] from a
    portable value of bounded depth, at any indentation, is validated and
    parsed into the value that was serialized. *)
Theorem validateAndParse_of_stringified :
  forall (response : ChatResponse ResponseRest) (v : json) (space : nat)
         (k : Console ResponseRest ClientError),
    portable v = true -> depth v <= nesting_limit ->
    optional_content response = Present (JSON_stringify v space) ->
    outcome (validateAndParse response) k = Return v.
Proof.
  intros response v space k Hv _ Hc.
  rewrite (@validateAndParse_on_content _ _ response
             (JSON_stringify v space) k); [|intros E|assumption].
  - now rewrite (JSONRoundTrip.reads_JSON_parse
                   (@JSONRoundTrip.portable_reads v space Hv)).
  - destruct (@JSONRoundTrip.serialize_head
                (repeat Ch.space (Nat.min 10 space)) [] v
                (JSONRoundTrip.portable_well_formed _ Hv))
      as (c & r & Hs & _).
    unfold JSON_stringify in E. congruence.
Qed.

End Stringified.

Section Requests.

Variables ResponseRest ClientError : Type.

(** X13.  The guard [isValidResponse] is sound and complete for what its
    type predicate promises: it holds exactly when the reply has a
    message whose content is a non-empty string, and that string is what
    [response.message.content] then reads. *)
Theorem isValidResponse_narrows :
  forall (response : ChatResponse ResponseRest),
    isValidResponse response = true
    <-> exists m c cs,
          message response = Present m
          /\ reply_content m = Present (c :: cs)
          /\ message_content response = c :: cs.
Proof.
  intros response.
  unfold isValidResponse, message_content, optional_content, truthy.
  destruct (message response) as [| |m].
  - split; [discriminate|]. intros (m & c & cs & H & _). discriminate.
  - split; [discriminate|]. intros (m & c & cs & H & _). discriminate.
  - destruct (reply_content m) as [| |[|c cs]] eqn:E; split;
      try discriminate;
      try (intros (m' & c' & cs' & H & H' & _); inversion H; subst m';
           congruence).
    intros _. now exists m, c, cs.
Qed.

(** The request of [getChatResponse], written out: the model name and
    the two messages, the system prompt in full. *)
Lemma chat_request_literal (city : jsstring) :
  chat_request city
  = {| model := str "gemma:2b";
       messages := [ {| role := str "system"; content := system_prompt |};
                     {| role := str "user"; content := city |} ] |}.
Proof. reflexivity. Qed.

(** X14.  [getChatResponse] asks the client one thing only: on the host
    [http://127.0.0.1:11434], the request with the model [gemma:2b] and
    the two messages, the system prompt and the city as the user.  Two
    clients that settle that request alike give the same result and the
    same console, whatever they do on other requests or other hosts. *)
Theorem getChatResponse_single_request :
  forall (chat1 chat2 :
            jsstring -> ChatRequest -> ChatOutcome ResponseRest ClientError)
         (city : jsstring) (k : Console ResponseRest ClientError),
    chat1 (str "http://127.0.0.1:11434")
      {| model := str "gemma:2b";
         messages := [ {| role := str "system"; content := system_prompt |};
                       {| role := str "user"; content := city |} ] |}
    = chat2 (str "http://127.0.0.1:11434")
        {| model := str "gemma:2b";
           messages := [ {| role := str "system"; content := system_prompt |};
                         {| role := str "user"; content := city |} ] |} ->
    getChatResponse chat1 city k = getChatResponse chat2 city k.
Proof.
  intros chat1 chat2 city k H.
  change {| model := str "gemma:2b";
            messages := [ {| role := str "system"; content := system_prompt |};
                          {| role := str "user"; content := city |} ] |}
    with (chat_request city) in H.
  change (str "http://127.0.0.1:11434") with host in H.
  rewrite !getChatResponse_full_run. now rewrite H.
Qed.

End Requests.

(* ================================================================= *)
(** ** Further statements at concrete replies *)

Module MoreScenarios.
Import Demo.

Lemma getChatResponse_resolves_iff_witness :
  outcome (getChatResponse (answering london_text) london) start
  = Return (city_info london (str "Finance") (str "Visit the British Museum")).
Proof.
  apply (proj2 (getChatResponse_resolves_iff (answering london_text)
                  london start _)).
  exists (reply (Present london_text)). repeat split.
Defined.

Lemma getChatResponse_console_on_success_witness :
  exists response,
    answering london_text host (chat_request london) = Resolves response
    /\ written (getChatResponse (answering london_text) london) start
       = start
         ++ [ log_line (str "Raw ChatResponse:") (VResponse response);
              log_line (str "Parsed Chat Response:")
                (VJson (city_info london (str "Finance")
                          (str "Visit the British Museum"))) ].
Proof.
  apply getChatResponse_console_on_success. reflexivity.
Defined.

Lemma getChatResponse_console_on_failure_witness :
  exists inner,
    error_cause (wrapper london (VClientError (str "fetch failed"))
                 : jsvalue jsstring jsstring) = Some inner
    /\ ((exists reason,
           unreachable host (chat_request london) = Rejects reason
           /\ written (getChatResponse unreachable london) start
              = start ++ [ error_line (str "Error fetching chat response:")
                             inner ])
        \/ (exists response,
              unreachable host (chat_request london) = Resolves response
              /\ written (getChatResponse unreachable london) start
                 = start
                   ++ [ log_line (str "Raw ChatResponse:")
                          (VResponse response);
                        error_line (str "Error fetching chat response:")
                          inner ])).
Proof.
  apply (getChatResponse_console_on_failure unreachable london start).
  reflexivity.
Defined.

Lemma queried_city_of_failure_witness :
  queried_city (wrapper london (invalid_structure no_message)
                : jsvalue jsstring jsstring) = Some london.
Proof.
  apply (queried_city_of_failure silent london start). reflexivity.
Defined.

Lemma failure_keeps_what_was_sent_witness :
  (isValidResponse (reply (Present (str "{city: London}"))) = false
   /\ inner_cause
        (wrapper london
           (parse_failure {| position := 1 |} (str "{city: London}"))
         : jsvalue jsstring jsstring)
      = Some (VResponse (reply (Present (str "{city: London}")))))
  \/ (isValidResponse (reply (Present (str "{city: London}"))) = true
      /\ rawResponse_of
           (wrapper london
              (parse_failure {| position := 1 |} (str "{city: London}"))
            : jsvalue jsstring jsstring)
         = Some (message_content (reply (Present (str "{city: London}"))))).
Proof.
  apply (failure_keeps_what_was_sent
           (answering (str "{city: London}")) london start);
    reflexivity.
Defined.

Lemma validateAndParse_blank_text_witness :
  isValidResponse (reply (Present [Ch.space; Ch.lf])) = true
  /\ exists e,
       outcome (validateAndParse (reply (Present [Ch.space; Ch.lf]))) start
       = Throw e
       /\ error_name e = Some (str "ChatResponseError")
       /\ error_message e = Some (str "Failed to parse JSON")
       /\ error_cause e
          = Some (VParseDetails (VSyntaxError {| position := 2 |})
                    [Ch.space; Ch.lf]).
Proof.
  apply (@validateAndParse_blank_text _ _
           (reply (Present [Ch.space; Ch.lf])) [Ch.space; Ch.lf] start);
    [discriminate | reflexivity | reflexivity].
Defined.

Lemma validateAndParse_text_before_json_witness :
  exists e,
    outcome (validateAndParse (reply (Present fenced_text))) start = Throw e
    /\ error_name e = Some (str "ChatResponseError")
    /\ error_message e = Some (str "Failed to parse JSON")
    /\ error_cause e
       = Some (VParseDetails (VSyntaxError {| position := 0 |}) fenced_text).
Proof.
  apply (@validateAndParse_text_before_json _ _
           (reply (Present fenced_text))
           [] 96%N (str "``json" ++ Ch.lf :: str "{}" ++ Ch.lf :: str "```")
           start);
    reflexivity.
Defined.

Lemma validateAndParse_padded_json_witness :
  outcome (validateAndParse (reply (Present padded_london_text))) start
  = Return (city_info london (str "Finance") (str "Visit the British Museum")).
Proof.
  apply (@validateAndParse_padded_json _ _
           (reply (Present padded_london_text))
           [Ch.lf] london_text [Ch.cr; Ch.lf] _ start);
    reflexivity.
Defined.

Lemma JSON_parse_stringify_witness :
  JSON_parse (JSON_stringify schema 2) = inr schema.
Proof.
  apply JSON_parse_stringify; [reflexivity | vm_compute; lia].
Defined.

Lemma constructMessages_injective_witness :
  str "Paris" = str "Paris" /\ schema = schema.
Proof.
  apply (@constructMessages_injective (str "Paris") (str "Paris")
           schema schema);
    try reflexivity; vm_compute; lia.
Defined.

Lemma validateAndParse_of_stringified_witness :
  outcome (validateAndParse (reply (Present (JSON_stringify schema 0)))) start
  = Return schema.
Proof.
  apply (@validateAndParse_of_stringified _ _
           (reply (Present (JSON_stringify schema 0))) schema 0 start);
    try reflexivity; vm_compute; lia.
Defined.

Lemma isValidResponse_narrows_witness :
  exists m c cs,
    message (reply (Present (str "{}"))) = Present m
    /\ reply_content m = Present (c :: cs)
    /\ message_content (reply (Present (str "{}"))) = c :: cs.
Proof.
  apply (proj1 (isValidResponse_narrows (reply (Present (str "{}"))))).
  reflexivity.
Defined.

Lemma getChatResponse_single_request_witness :
  getChatResponse only_local london start
  = getChatResponse (answering (str "{}")) london start.
Proof.
  apply getChatResponse_single_request. reflexivity.
Defined.

End MoreScenarios.
